(** * c-flow: functional utilities and iterators for C (flow.h)

    A shallow embedding of the macros of [flow.h] and of the parts of
    [example.c] that exercise them.

    - Part I models the two composition forms, [chain] and [pipe], at the
      level the source defines them: as preprocessor macros selected by
      counting arguments.
    - Part II models the [Iterator] struct and the iterator macros over a
      block-based byte memory, with [malloc], [memcpy] and [memcmp]. *)

From Stdlib Require Import ZArith Lia.
From Stdlib.Strings Require Import Byte.
From stdpp Require Import prelude strings.

Local Open Scope Z_scope.

(** * Part I: composition macros *)

(** ** C expressions produced by macro expansion *)

(** Macro arguments are token sequences; the ones [chain] receives are an
    input expression and function designators, and what it produces is a
    call expression. *)
#[warnings="-register-all"]
Inductive cexpr : Type :=
  | Ident (x : string)
  | Call (f : cexpr) (args : list cexpr).

(** A function-like macro: invoked with the wrong number of arguments it
    is rejected by the preprocessor ([None]). *)
Definition macro : Type := list cexpr → option cexpr.

(** One argument of the selector macro: either something the caller wrote
    or the name of a macro that [chain] appended. *)
Inductive token : Type :=
  | Arg (e : cexpr)
  | Name (m : macro).

(** *** The fixed-arity expansions, parameter lists as in the header *)

Definition CHAIN_2 : macro := λ args,
  match args with
  | [input; f1] => Some (Call f1 [input])
  | _ => None
  end.

Definition CHAIN_3 : macro := λ args,
  match args with
  | [input; f1; f2] => Some (Call f2 [Call f1 [input]])
  | _ => None
  end.

(** [#define CHAIN_4(input, f1, f2, f3, f4) f4(f3(f2(f1(input))))] *)
Definition CHAIN_4 : macro := λ args,
  match args with
  | [input; f1; f2; f3; f4] =>
      Some (Call f4 [Call f3 [Call f2 [Call f1 [input]]]])
  | _ => None
  end.

Definition CHAIN_5 : macro := λ args,
  match args with
  | [input; f1; f2; f3; f4] =>
      Some (Call f4 [Call f3 [Call f2 [Call f1 [input]]]])
  | _ => None
  end.

Definition CHAIN_6 : macro := λ args,
  match args with
  | [input; f1; f2; f3; f4; f5] =>
      Some (Call f5 [Call f4 [Call f3 [Call f2 [Call f1 [input]]]]])
  | _ => None
  end.

Definition CHAIN_7 : macro := λ args,
  match args with
  | [input; f1; f2; f3; f4; f5; f6] =>
      Some (Call f6 [Call f5 [Call f4 [Call f3 [Call f2 [Call f1 [input]]]]]])
  | _ => None
  end.

Definition CHAIN_8 : macro := λ args,
  match args with
  | [input; f1; f2; f3; f4; f5; f6; f7] =>
      Some (Call f7 [Call f6 [Call f5 [Call f4 [Call f3 [Call f2
              [Call f1 [input]]]]]]])
  | _ => None
  end.

Definition CHAIN_9 : macro := λ args,
  match args with
  | [input; f1; f2; f3; f4; f5; f6; f7; f8] =>
      Some (Call f8 [Call f7 [Call f6 [Call f5 [Call f4 [Call f3 [Call f2
              [Call f1 [input]]]]]]]])
  | _ => None
  end.

Definition CHAIN_10 : macro := λ args,
  match args with
  | [input; f1; f2; f3; f4; f5; f6; f7; f8; f9] =>
      Some (Call f9 [Call f8 [Call f7 [Call f6 [Call f5 [Call f4 [Call f3
              [Call f2 [Call f1 [input]]]]]]]]])
  | _ => None
  end.

(** [#define GET_CHAIN_MACRO(_1,...,_11,NAME,...) NAME]: the twelfth
    argument; with fewer than twelve the invocation is ill-formed. *)
Definition GET_CHAIN_MACRO (ts : list token) : option token := ts !! 11%nat.

(** [chain(...)]: the caller's arguments followed by the nine macro names
    go to the selector, and whatever it returns is applied to the caller's
    arguments. *)
Definition chain (va_args : list cexpr) : option cexpr :=
  match GET_CHAIN_MACRO
          ((Arg <$> va_args) ++
           [Name CHAIN_10; Name CHAIN_9; Name CHAIN_8; Name CHAIN_7;
            Name CHAIN_6; Name CHAIN_5; Name CHAIN_4; Name CHAIN_3;
            Name CHAIN_2]) with
  | Some (Name m) => m va_args
  | Some (Arg f) => Some (Call f va_args)
  | None => None
  end.

(** The expression the documentation promises for [chain(x, f1, ..., fn)]:
    [fn(...f2(f1(x)))]. *)
Definition nest (x : cexpr) (fs : list cexpr) : cexpr :=
  foldl (λ e f, Call f [e]) x fs.

(** ** C [int] arithmetic and the step functions of [example.c] *)

(** Two's complement reduction of a mathematical integer to 32 bits. *)
Definition int_wrap (z : Z) : Z := (z + 2 ^ 31) mod 2 ^ 32 - 2 ^ 31.

Definition add (a b : Z) : Z := int_wrap (a + b).
Definition mul (a b : Z) : Z := int_wrap (a * b).
Definition sub (a b : Z) : Z := int_wrap (a - b).

(** ** The pipe macros *)

Section Pipe.
Context {A : Type}.

(** The first argument of [pipe] initialises the placeholder; every
    later one is an expression in which the placeholder may occur. *)
Inductive pipe_arg : Type :=
  | Init (init : A)
  | Step (s : A → A).

Definition pipe_macro : Type := list pipe_arg → option A.

Inductive pipe_token : Type :=
  | PArg (a : pipe_arg)
  | PName (m : pipe_macro).

Definition PIPE_STEP_1 : pipe_macro := λ args,
  match args with
  | [Init init; Step s1] =>
      let p := init in let p := s1 p in Some p
  | _ => None
  end.

Definition PIPE_STEP_2 : pipe_macro := λ args,
  match args with
  | [Init init; Step s1; Step s2] =>
      let p := init in let p := s1 p in let p := s2 p in Some p
  | _ => None
  end.

Definition PIPE_STEP_3 : pipe_macro := λ args,
  match args with
  | [Init init; Step s1; Step s2; Step s3] =>
      let p := init in let p := s1 p in let p := s2 p in
      let p := s3 p in Some p
  | _ => None
  end.

Definition PIPE_STEP_4 : pipe_macro := λ args,
  match args with
  | [Init init; Step s1; Step s2; Step s3; Step s4] =>
      let p := init in let p := s1 p in let p := s2 p in
      let p := s3 p in let p := s4 p in Some p
  | _ => None
  end.

Definition PIPE_STEP_5 : pipe_macro := λ args,
  match args with
  | [Init init; Step s1; Step s2; Step s3; Step s4; Step s5] =>
      let p := init in let p := s1 p in let p := s2 p in
      let p := s3 p in let p := s4 p in let p := s5 p in Some p
  | _ => None
  end.

Definition PIPE_STEP_6 : pipe_macro := λ args,
  match args with
  | [Init init; Step s1; Step s2; Step s3; Step s4; Step s5; Step s6] =>
      let p := init in let p := s1 p in let p := s2 p in
      let p := s3 p in let p := s4 p in let p := s5 p in
      let p := s6 p in Some p
  | _ => None
  end.

Definition PIPE_STEP_7 : pipe_macro := λ args,
  match args with
  | [Init init; Step s1; Step s2; Step s3; Step s4; Step s5; Step s6;
     Step s7] =>
      let p := init in let p := s1 p in let p := s2 p in
      let p := s3 p in let p := s4 p in let p := s5 p in
      let p := s6 p in let p := s7 p in Some p
  | _ => None
  end.

Definition PIPE_STEP_8 : pipe_macro := λ args,
  match args with
  | [Init init; Step s1; Step s2; Step s3; Step s4; Step s5; Step s6;
     Step s7; Step s8] =>
      let p := init in let p := s1 p in let p := s2 p in
      let p := s3 p in let p := s4 p in let p := s5 p in
      let p := s6 p in let p := s7 p in let p := s8 p in Some p
  | _ => None
  end.

Definition PIPE_STEP_9 : pipe_macro := λ args,
  match args with
  | [Init init; Step s1; Step s2; Step s3; Step s4; Step s5; Step s6;
     Step s7; Step s8; Step s9] =>
      let p := init in let p := s1 p in let p := s2 p in
      let p := s3 p in let p := s4 p in let p := s5 p in
      let p := s6 p in let p := s7 p in let p := s8 p in
      let p := s9 p in Some p
  | _ => None
  end.

Definition PIPE_STEP_10 : pipe_macro := λ args,
  match args with
  | [Init init; Step s1; Step s2; Step s3; Step s4; Step s5; Step s6;
     Step s7; Step s8; Step s9; Step s10] =>
      let p := init in let p := s1 p in let p := s2 p in
      let p := s3 p in let p := s4 p in let p := s5 p in
      let p := s6 p in let p := s7 p in let p := s8 p in
      let p := s9 p in let p := s10 p in Some p
  | _ => None
  end.

Definition GET_PIPE_MACRO (ts : list pipe_token) : option pipe_token :=
  ts !! 11%nat.

(** [pipe(...)]; when the selector lands on one of the caller's own
    arguments the result is not a pipeline at all, which is reported as
    [None] here. *)
Definition pipe (va_args : list pipe_arg) : option A :=
  match GET_PIPE_MACRO
          ((PArg <$> va_args) ++
           [PName PIPE_STEP_10; PName PIPE_STEP_9; PName PIPE_STEP_8;
            PName PIPE_STEP_7; PName PIPE_STEP_6; PName PIPE_STEP_5;
            PName PIPE_STEP_4; PName PIPE_STEP_3; PName PIPE_STEP_2;
            PName PIPE_STEP_1]) with
  | Some (PName m) => m va_args
  | _ => None
  end.
End Pipe.

Arguments pipe_arg : clear implicits.

(** The pipeline of [example.c], lines 48-54. *)
Definition example_pipe : list (pipe_arg Z) :=
  [ Init (add 3 2);
    Step (λ p, sub 4 p);
    Step (λ p, mul 5 p);
    Step (λ p, sub p 1);
    Step (λ p, add p p) ].

(** * Part II: iterators over a byte memory *)

(** ** [size_t] and [ptrdiff_t] *)

Definition SIZE_MOD : Z := 2 ^ 64.
Definition PTRDIFF_MAX : Z := 2 ^ 63 - 1.

(** Conversion of an integer value to [size_t]. *)
Definition sz (z : Z) : Z := z mod SIZE_MOD.
Definition szadd (a b : Z) : Z := sz (a + b).
Definition szsub (a b : Z) : Z := sz (a - b).
Definition szmul (a b : Z) : Z := sz (a * b).

(** The cast [(ptrdiff_t)n] of a [size_t] value. *)
Definition to_ptrdiff (n : Z) : Z :=
  if n <=? PTRDIFF_MAX then n else n - SIZE_MOD.

(** ** Memory *)

(** A heap is a sequence of blocks; a block is a sequence of cells, and a
    cell that was never written holds no byte.  Pointers are a block and a
    byte offset into it, so arithmetic stays inside the block it starts
    from. *)
Abbreviation heap := (list (list (option byte))) (only parsing).

Record ptr : Type := Ptr { blk : nat; off : Z }.

Definition ptr_add (p : ptr) (d : Z) : ptr := Ptr (blk p) (off p + d).
Infix "+ₚ" := ptr_add (at level 50, left associativity).

(** [n] bytes starting at [p]; fails outside the block or on a cell that
    holds nothing. *)
Definition load (h : heap) (p : ptr) (n : Z) : option (list byte) :=
  match h !! blk p with
  | Some B =>
      if (0 <=? off p) && (0 <=? n) && (off p + n <=? Z.of_nat (length B))
      then mapM id (take (Z.to_nat n) (drop (Z.to_nat (off p)) B))
      else None
  | None => None
  end.

Definition store (h : heap) (p : ptr) (bs : list byte) : option heap :=
  match h !! blk p with
  | Some B =>
      if (0 <=? off p) && (off p + Z.of_nat (length bs) <=? Z.of_nat (length B))
      then Some (<[blk p := take (Z.to_nat (off p)) B ++ (Some <$> bs) ++
                            drop (Z.to_nat (off p) + length bs) B]> h)
      else None
  | None => None
  end.

(** ** Computations on the heap that may go wrong *)

Definition M (A : Type) : Type := heap → option (A * heap).

#[global] Instance M_ret : MRet M := λ A a h, Some (a, h).
#[global] Instance M_bind : MBind M := λ A B f m h,
  match m h with
  | Some (a, h') => f a h'
  | None => None
  end.

Definition load_bytes (p : ptr) (n : Z) : M (list byte) := λ h,
  match load h p n with
  | Some bs => Some (bs, h)
  | None => None
  end.

Definition store_bytes (p : ptr) (bs : list byte) : M unit := λ h,
  match store h p bs with
  | Some h' => Some ((), h')
  | None => None
  end.

(** Allocation is taken to succeed; it yields a fresh block of [n] cells
    that hold nothing yet. *)
Definition malloc (n : Z) : M ptr := λ h,
  Some (Ptr (length h) 0, h ++ [replicate (Z.to_nat n) None]).

Definition memcpy (dst src : ptr) (n : Z) : M unit :=
  bs ← load_bytes src n; store_bytes dst bs.

Definition byte_to_Z (b : byte) : Z := Z.of_N (Byte.to_N b).
Definition byte_of_Z (z : Z) : byte :=
  default x00 (Byte.of_N (Z.to_N (z mod 256))).

(** Lexicographic comparison of two byte strings as [unsigned char]s. *)
Fixpoint bytes_compare (xs ys : list byte) : Z :=
  match xs, ys with
  | x :: xs', y :: ys' =>
      if byte_to_Z x <? byte_to_Z y then -1
      else if byte_to_Z y <? byte_to_Z x then 1
      else bytes_compare xs' ys'
  | _, _ => 0
  end.

Definition memcmp (p q : ptr) (n : Z) : M Z :=
  xs ← load_bytes p n; ys ← load_bytes q n; mret (bytes_compare xs ys).

(** ** Loops *)

Inductive ctl (St : Type) : Type :=
  | Continue (s : St)
  | Break (s : St).
Arguments Continue {St} s.
Arguments Break {St} s.

(** [n] iterations with the index counting up from [i], unless the body
    breaks. *)
Fixpoint for_upto {St : Type} (n : nat) (i : Z)
    (body : Z → St → M (ctl St)) (s : St) : M St :=
  match n with
  | O => mret s
  | S n' =>
      r ← body i s;
      match r with
      | Continue s' => for_upto n' (i + 1) body s'
      | Break s' => mret s'
      end
  end.

(** [for (i = lo; i < hi; ++i) body], for bounds that the body leaves
    alone: the trip count is known on entry. *)
Definition for_range {St : Type} (lo hi : Z)
    (body : Z → St → M (ctl St)) (s : St) : M St :=
  for_upto (Z.to_nat (hi - lo)) lo body s.

Fixpoint for_downto {St : Type} (n : nat) (i : Z)
    (body : Z → St → M (ctl St)) (s : St) : M St :=
  match n with
  | O => mret s
  | S n' =>
      r ← body i s;
      match r with
      | Continue s' => for_downto n' (i - 1) body s'
      | Break s' => mret s'
      end
  end.

(** [for (i = hi; i >= 0; --i) body] on a signed index. *)
Definition for_range_down {St : Type} (hi : Z)
    (body : Z → St → M (ctl St)) (s : St) : M St :=
  for_downto (Z.to_nat (hi + 1)) hi body s.

(** ** The [Iterator] struct *)

Record Iterator : Type := mkIterator {
  data : ptr;
  len : Z;
  elem_size : Z
}.

Record IteratorPartitionResult : Type := mkPartition {
  yes : Iterator;
  no : Iterator
}.

(** ** Element types *)

(** What a macro needs to know of its [type] argument: [sizeof], and how a
    value is laid out in and read back from memory. *)
Class CType (T : Type) : Type := {
  sizeof : Z;
  encode : T → list byte;
  decode : list byte → T
}.

Class CTypeOk (T : Type) `{CType T} : Prop := {
  sizeof_pos : 0 < sizeof;
  encode_length : ∀ v : T, Z.of_nat (length (encode v)) = sizeof;
  decode_encode : ∀ bs : list byte,
    Z.of_nat (length bs) = sizeof → decode (encode (decode bs)) = decode bs
}.

Fixpoint le_encode (n : nat) (z : Z) : list byte :=
  match n with
  | O => []
  | S n' => byte_of_Z z :: le_encode n' (z / 256)
  end.

Fixpoint le_decode (bs : list byte) : Z :=
  match bs with
  | [] => 0
  | b :: bs' => byte_to_Z b + 256 * le_decode bs'
  end.

(** [int]: four bytes, little-endian, two's complement. *)
#[global] Instance int_ctype : CType Z := {
  sizeof := 4;
  encode v := le_encode 4 (v mod 2 ^ 32);
  decode bs := int_wrap (le_decode bs)
}.

(** [unsigned char]. *)
#[global] Instance uchar_ctype : CType byte := {
  sizeof := 1;
  encode b := [b];
  decode bs := default x00 (head bs)
}.

(** [((type * )p)[i]] as an rvalue and as the target of an assignment. *)
Definition load_elem (T : Type) `{CType T} (p : ptr) (i : Z) : M T :=
  bs ← load_bytes (p +ₚ i * sizeof) sizeof; mret (decode bs).

Definition store_elem {T : Type} `{CType T} (p : ptr) (i : Z) (v : T) : M unit :=
  store_bytes (p +ₚ i * sizeof) (encode v).

(** [typedef struct { int a, b; } pair_int_int;] of [example.c]. *)
#[global] Instance pair_int_int : CType (Z * Z) := {
  sizeof := 8;
  encode p := encode p.1 ++ encode p.2;
  decode bs := (decode (take 4 bs), decode (drop 4 bs))
}.

(** An array object with an initialiser, and [to_iter] on it. *)
Definition decl_array {T : Type} `{CType T} (vs : list T) : M ptr :=
  p ← malloc (Z.of_nat (length vs) * sizeof);
  store_bytes p (mjoin (encode <$> vs));;
  mret p.

Definition to_iter (arr : ptr) (sizeof_arr sizeof_elem : Z) : Iterator :=
  {| data := arr; len := sizeof_arr / sizeof_elem; elem_size := sizeof_elem |}.

(** ** The iterator macros *)

(** A bound or count that a macro compares with or assigns to a [size_t]
    is converted to [size_t] first ([sz]).  Products and sums of [size_t]
    values wrap; an index applied to a typed pointer does not, it moves the
    pointer by that many elements. *)

Definition iter_slice (it : Iterator) (start end_ : Z) : Iterator :=
  let _s := if sz start <? len it then sz start else len it in
  let _e := if sz end_ <? len it then sz end_ else len it in
  {| data := data it +ₚ szmul _s (elem_size it);
     len := if _e >? _s then szsub _e _s else 0;
     elem_size := elem_size it |}.

Definition iter_take (it : Iterator) (n : Z) : Iterator :=
  let _n := if sz n <? len it then sz n else len it in
  {| data := data it; len := _n; elem_size := elem_size it |}.

Definition iter_drop (it : Iterator) (n : Z) : Iterator :=
  let _n := if sz n <? len it then sz n else len it in
  {| data := data it +ₚ szmul _n (elem_size it);
     len := szsub (len it) _n;
     elem_size := elem_size it |}.

Definition iter_reverse (it : Iterator) : M Iterator :=
  _out ← malloc (szmul (len it) (elem_size it));
  for_range 0 (len it) (λ _i (_ : unit),
    memcpy (_out +ₚ szmul _i (elem_size it))
           (data it +ₚ szmul (szsub (szsub (len it) 1) _i) (elem_size it))
           (elem_size it);;
    mret (Continue ())) ();;
  mret {| data := _out; len := len it; elem_size := elem_size it |}.

Definition iter_unique (it : Iterator) : M Iterator :=
  _out ← malloc (szmul (len it) (elem_size it));
  _count ← for_range 0 (len it) (λ _i _count,
    _found ← for_range 0 _count (λ _j _found,
      r ← memcmp (data it +ₚ szmul _i (elem_size it))
                 (_out +ₚ szmul _j (elem_size it)) (elem_size it);
      if r =? 0 then mret (Break 1) else mret (Continue _found)) 0;
    if _found =? 0
    then memcpy (_out +ₚ szmul _count (elem_size it))
                (data it +ₚ szmul _i (elem_size it)) (elem_size it);;
         mret (Continue (szadd _count 1))
    else mret (Continue _count)) 0;
  mret {| data := _out; len := _count; elem_size := elem_size it |}.

Definition iter_concat (_a _b : Iterator) : M Iterator :=
  _out ← malloc (szmul (szadd (len _a) (len _b)) (elem_size _a));
  memcpy _out (data _a) (szmul (len _a) (elem_size _a));;
  memcpy (_out +ₚ szmul (len _a) (elem_size _a)) (data _b)
         (szmul (len _b) (elem_size _b));;
  mret {| data := _out; len := szadd (len _a) (len _b);
          elem_size := elem_size _a |}.

(** The first loop of [_iter_pad_ptr] runs while [_i < _it.len && _i < _n],
    that is up to the smaller of the two; the second one takes over at the
    index the first one stopped at. *)
Definition _iter_pad_ptr (it : Iterator) (newlen : Z) (padptr : ptr) : M Iterator :=
  let _n := sz newlen in
  _out ← malloc (szmul _n (elem_size it));
  _i ← for_range 0 (Z.min (len it) _n) (λ _i (_ : Z),
    memcpy (_out +ₚ szmul _i (elem_size it))
           (data it +ₚ szmul _i (elem_size it)) (elem_size it);;
    mret (Continue (szadd _i 1))) 0;
  for_range _i _n (λ _i (_ : unit),
    memcpy (_out +ₚ szmul _i (elem_size it)) padptr (elem_size it);;
    mret (Continue ())) ();;
  mret {| data := _out; len := _n; elem_size := elem_size it |}.

(** [iter_pad] keeps the pad value in a local of the value's own type and
    hands its address on. *)
Definition iter_pad {T : Type} `{CType T} (it : Iterator) (newlen : Z)
    (padval : T) : M Iterator :=
  _padval ← malloc sizeof;
  store_bytes _padval (encode padval);;
  _iter_pad_ptr it newlen _padval.

Definition iter_repeat (it : Iterator) (times : Z) : M Iterator :=
  let _t := sz times in
  _out ← malloc (szmul (szmul (len it) _t) (elem_size it));
  for_range 0 _t (λ _i (_ : unit),
    memcpy (_out +ₚ szmul (szmul _i (len it)) (elem_size it)) (data it)
           (szmul (len it) (elem_size it));;
    mret (Continue ())) ();;
  mret {| data := _out; len := szmul (len it) _t; elem_size := elem_size it |}.

Section Typed.
Context {T : Type} `{CType T}.

Definition iter_foldl {Acc : Type} (it : Iterator) (init : Acc)
    (expr : Acc → T → Acc) : M Acc :=
  for_range 0 (len it) (λ _i acc,
    x ← load_elem T (data it) _i;
    mret (Continue (expr acc x))) init.

Definition iter_foldr {Acc : Type} (it : Iterator) (init : Acc)
    (expr : Acc → T → Acc) : M Acc :=
  for_range_down (to_ptrdiff (len it) - 1) (λ _i acc,
    x ← load_elem T (data it) _i;
    mret (Continue (expr acc x))) init.

Definition iter_partition (it : Iterator) (pred : T → bool)
    : M IteratorPartitionResult :=
  _yes ← malloc (szmul (len it) sizeof);
  _no ← malloc (szmul (len it) sizeof);
  yn ← for_range 0 (len it) (λ _i (yn : Z * Z),
    let '(_y, _n) := yn in
    x ← load_elem T (data it) _i;
    if pred x
    then store_elem _yes _y x;; mret (Continue (szadd _y 1, _n))
    else store_elem _no _n x;; mret (Continue (_y, szadd _n 1))) (0, 0);
  mret {| yes := {| data := _yes; len := yn.1; elem_size := sizeof |};
          no := {| data := _no; len := yn.2; elem_size := sizeof |} |}.

Definition iter_any (it : Iterator) (pred : T → bool) : M Z :=
  for_range 0 (len it) (λ _i _found,
    x ← load_elem T (data it) _i;
    if pred x then mret (Break 1) else mret (Continue _found)) 0.

Definition iter_all (it : Iterator) (pred : T → bool) : M Z :=
  for_range 0 (len it) (λ _i _all,
    x ← load_elem T (data it) _i;
    if negb (pred x) then mret (Break 0) else mret (Continue _all)) 1.
End Typed.

(** ** The other iterator macros *)

(** A value as a variable of type [T] holds it: what comes back after the
    value has been converted to [T] and stored. *)
Definition c_repr {T : Type} `{CType T} (v : T) : T := decode (encode v).

(** The arithmetic [iter_sum] needs of its [type]: the constant [0] and
    [+=]. *)
Class CArith (T : Type) : Type := {
  c_zero : T;
  c_add : T → T → T
}.

#[global] Instance int_arith : CArith Z := {
  c_zero := 0;
  c_add := add
}.

(** [double], as far as the macros are concerned: eight bytes. *)
Record double : Type := Double { double_bytes : list byte }.

#[global] Instance double_ctype : CType double := {
  sizeof := 8;
  encode d := double_bytes d;
  decode bs := Double bs
}.

Section Typed2.
Context {T : Type} `{CType T}.

Definition iter_map {U : Type} `{CType U} (it : Iterator) (expr : T → U)
    : M Iterator :=
  _out ← malloc (szmul (len it) (sizeof (T := U)));
  for_range 0 (len it) (λ _i (_ : unit),
    x ← load_elem T (data it) _i;
    store_elem _out _i (expr x);;
    mret (Continue ())) ();;
  mret {| data := _out; len := len it; elem_size := sizeof (T := U) |}.

Definition iter_then (it : Iterator) (expr : M unit) : M Iterator :=
  expr;; mret it.

Definition iter_filter (it : Iterator) (pred : T → bool) : M Iterator :=
  _out ← malloc (szmul (len it) sizeof);
  _count ← for_range 0 (len it) (λ _i _count,
    x ← load_elem T (data it) _i;
    if pred x
    then store_elem _out _count x;; mret (Continue (szadd _count 1))
    else mret (Continue _count)) 0;
  mret {| data := _out; len := _count; elem_size := sizeof |}.

Definition iter_sum `{CArith T} (it : Iterator) : M T :=
  for_range 0 (len it) (λ _i _sum,
    x ← load_elem T (data it) _i;
    mret (Continue (c_add _sum x))) c_zero.

Definition iter_for (it : Iterator) (op : T → M unit) : M Iterator :=
  for_range 0 (len it) (λ _i (_ : unit),
    x ← load_elem T (data it) _i;
    op x;;
    mret (Continue ())) ();;
  mret it.

(** The accumulator of [iter_scan] is a variable of the element type. *)
Definition iter_scan (it : Iterator) (init : T) (expr : T → T → T)
    : M Iterator :=
  let acc := c_repr init in
  _out ← malloc (szmul (len it) sizeof);
  for_range 0 (len it) (λ _i acc,
    x ← load_elem T (data it) _i;
    let acc := c_repr (expr acc x) in
    store_elem _out _i acc;;
    mret (Continue acc)) acc;;
  mret {| data := _out; len := len it; elem_size := sizeof |}.
End Typed2.

(** [iter_zip]; [mk a b] is the compound literal
    [(pairtype){ .a = a, .b = b }]. *)
Definition iter_zip {A B P : Type} `{CType A} `{CType B} `{CType P}
    (_a _b : Iterator) (mk : A → B → P) : M Iterator :=
  let _n := if len _a <? len _b then len _a else len _b in
  _out ← malloc (szmul _n (sizeof (T := P)));
  for_range 0 _n (λ _i (_ : unit),
    x ← load_elem A (data _a) _i;
    y ← load_elem B (data _b) _i;
    store_elem _out _i (mk x y);;
    mret (Continue ())) ();;
  mret {| data := _out; len := _n; elem_size := sizeof (T := P) |}.

(** [iter_range(int, start, end)]: the bounds are kept in [int]s, their
    difference is taken in [int] and converted to [size_t], and the index is
    cast to [int] before it is added to the start. *)
Definition iter_range (start end_ : Z) : M Iterator :=
  let _s := c_repr start in
  let _e := c_repr end_ in
  let _n := if _e >? _s then sz (sub _e _s) else 0 in
  _out ← malloc (szmul _n 4);
  for_range 0 _n (λ _i (_ : unit),
    store_elem _out _i (add _s (int_wrap _i));;
    mret (Continue ())) ();;
  mret {| data := _out; len := _n; elem_size := 4 |}.

(** [printf] writes to the terminal and leaves the memory alone. *)
Definition printf {T : Type} (x : T) : M unit := mret ().

(** The first iterator test of [example.c], lines 58-71: the array is
    mapped as [int]s and then traversed as [double]s. *)
Definition example_test1 : M Iterator :=
  arr ← decl_array [1; 2; 3; 4; 5; 6; 7];
  p ← mret (to_iter arr (7 * 4) 4);
  p ← iter_map (T := Z) (U := Z) p (λ x, mul x 7);
  p ← iter_for (T := double) p (λ x, printf x);
  p ← mret (iter_drop p 2);
  p ← iter_for (T := double) p (λ x, printf x);
  mret p.

(** ** What a view denotes *)

(** The raw elements of a view: [len] reads of [elem_size] bytes each. *)
Fixpoint read_elems (h : heap) (p : ptr) (es : Z) (n : nat)
    : option (list (list byte)) :=
  match n with
  | O => Some []
  | S n' =>
      c ← load h p es; cs ← read_elems h (p +ₚ es) es n'; Some (c :: cs)
  end.

Definition elems (h : heap) (it : Iterator) : option (list (list byte)) :=
  read_elems h (data it) (elem_size it) (Z.to_nat (len it)).

Definition values {T : Type} `{CType T} (h : heap) (it : Iterator)
    : option (list T) :=
  fmap (M := list) decode <$> elems h it.

(** A view is valid in a heap when it spans no more than the largest
    object there can be, and its [len * elem_size] bytes can be read and are
    the elements [l], one after the other, [elem_size] bytes each. *)
Definition view (h : heap) (it : Iterator) (l : list (list byte)) : Prop :=
  0 < elem_size it ∧
  len it * elem_size it ≤ PTRDIFF_MAX ∧
  Z.of_nat (length l) = len it ∧
  Forall (λ c, Z.of_nat (length c) = elem_size it) l ∧
  load h (data it) (len it * elem_size it) = Some (mjoin l).

Definition typed_view {T : Type} `{CType T} (h : heap) (it : Iterator)
    (vs : list T) : Prop :=
  elem_size it = sizeof ∧ ∃ l, view h it l ∧ vs = decode <$> l.

(** Every block of [h] is still there, unchanged, in [h']. *)
Definition heap_extends (h h' : heap) : Prop :=
  ∀ b B, h !! b = Some B → h' !! b = Some B.

(** A buffer being filled: block [ob] has [cap] cells, and the elements
    [out] have been written to its front. *)
Definition buffer (h : heap) (ob : nat) (cap : Z) (out : list (list byte)) : Prop :=
  (∃ B, h !! ob = Some B ∧ Z.of_nat (length B) = cap) ∧
  load h (Ptr ob 0) (Z.of_nat (length (mjoin out))) = Some (mjoin out).

(** A view that starts at the front of its block and takes all of it: what
    an allocation of exactly [len * elem_size] bytes gives. *)
Definition fills_block (h : heap) (it : Iterator) : Prop :=
  off (data it) = 0 ∧
  ∃ B, h !! blk (data it) = Some B ∧
       Z.of_nat (length B) = len it * elem_size it.

(** ** The list [iter_unique] builds *)

#[global] Instance byte_eq_dec : EqDecision byte := Byte.byte_eq_dec.

(** One turn of the outer loop of [iter_unique] on the elements kept so
    far: the scan of [out] for [x], and the copy when it is not found. *)
Definition unique_step {A : Type} `{EqDecision A} (out : list A) (x : A) : list A :=
  if bool_decide (x ∈ out) then out else out ++ [x].

Definition unique_list {A : Type} `{EqDecision A} (l : list A) : list A :=
  foldl unique_step [] l.

(** ** The second test of [example.c], lines 73-117 *)

Definition example_test2 : M Iterator :=
  arr2 ← decl_array [1; 2; 2; 3; 4];
  let t2 := to_iter arr2 (5 * 4) 4 in
  t2 ← iter_repeat t2 2;
  t2 ← iter_concat t2 (to_iter arr2 (5 * 4) 4);
  t2 ← iter_reverse t2;
  t2 ← iter_unique t2;
  t2 ← iter_pad t2 10 (99 : Z);
  let t2 := iter_slice t2 2 7 in
  mret t2.

(** The arrays of [example.c] as they sit in memory once declared, and
    [to_iter] of them. *)
Definition heap_of {A : Type} (m : M A) : heap :=
  match m [] with
  | Some (_, h) => h
  | None => []
  end.

Definition arr2_heap : heap :=
  Eval vm_compute in heap_of (decl_array [1; 2; 2; 3; 4]).
Definition arr2_iter : Iterator := to_iter (Ptr 0 0) (5 * 4) 4.

Definition arr3_heap : heap :=
  Eval vm_compute in heap_of (decl_array [10; 20; 30; 40]).
Definition it3 : Iterator := to_iter (Ptr 0 0) (4 * 4) 4.

(** [arr3] and [arr4] of the third test, declared one after the other. *)
Definition arr34_heap : heap :=
  Eval vm_compute in
    heap_of (decl_array [10; 20; 30; 40];; decl_array [1; 2; 3; 4]).
Definition it4 : Iterator := to_iter (Ptr 1 0) (4 * 4) 4.

(** The array of the first test. *)
Definition arr_heap : heap :=
  Eval vm_compute in heap_of (decl_array [1; 2; 3; 4; 5; 6; 7]).
Definition arr_iter : Iterator := to_iter (Ptr 0 0) (7 * 4) 4.

(** [iter_unique] on the array [{1, 2, 2, 3, 4}]. *)
Definition example_unique : M Iterator :=
  arr2 ← decl_array [1; 2; 2; 3; 4];
  iter_unique (to_iter arr2 (5 * 4) 4).

(** Runs a computation from the empty heap and reads the resulting view
    as [T]s. *)
Definition run_values {T : Type} `{CType T} (m : M Iterator) : option (list T) :=
  match m [] with
  | Some (it, h) => values h it
  | None => None
  end.

(** * Theorems *)

(** ** The composition macros *)

Lemma chain_four x f1 f2 f3 f4 :
  chain [x; f1; f2; f3; f4] = Some (nest x [f1; f2; f3; f4]).
Proof. reflexivity. Qed.

Lemma chain_two_rejected x f1 f2 : chain [x; f1; f2] = None.
Proof. reflexivity. Qed.

(** What [chain] does with an input and one to nine functions: only the
    call with four functions expands. *)
Lemma chain_dispatch (x : cexpr) (fs : list cexpr) :
  (1 ≤ length fs ≤ 9)%nat →
  chain (x :: fs) = if decide (length fs = 4%nat) then Some (nest x fs) else None.
Proof.
  intros Hn.
  do 10 (destruct fs as [|? fs]; [simpl in Hn; try lia; reflexivity|]).
  simpl in Hn. lia.
Qed.

(** C1.  [chain(x, f1)], the one-function chain, is not accepted: the
    selector needs twelve arguments and receives eleven, so no expression
    [f1(x)] is produced. *)
Theorem chain_one_function_rejected (x f1 : cexpr) :
  chain [x; f1] = None ∧ nest x [f1] = Call f1 [x].
Proof. split; reflexivity. Qed.

(** C2.  The five-step pipeline of the demonstration program runs left to
    right through the placeholder values 5, -1, -5, -6 and ends in -12. *)
Theorem pipe_example_result :
  add 3 2 = 5 ∧
  pipe (take 2 example_pipe) = Some (-1) ∧
  pipe (take 3 example_pipe) = Some (-5) ∧
  pipe (take 4 example_pipe) = Some (-6) ∧
  pipe example_pipe = Some (-12).
Proof. repeat split; vm_compute; reflexivity. Qed.

(** ** The heap monad *)

Lemma bind_run {A B} (m : M A) (f : A → M B) h a h1 :
  m h = Some (a, h1) → (m ≫= f) h = f a h1.
Proof. intros E. unfold mbind, M_bind. by rewrite E. Qed.

(** ** Loops without [break] *)

Lemma for_upto_inv {St} (I : Z → St → heap → Prop)
    (body : Z → St → M (ctl St)) n i s h :
  I i s h →
  (∀ j s h, i ≤ j < i + Z.of_nat n → I j s h →
     ∃ s' h', body j s h = Some (Continue s', h') ∧ I (j + 1) s' h') →
  ∃ s' h', for_upto n i body s h = Some (s', h') ∧ I (i + Z.of_nat n) s' h'.
Proof.
  revert i s h. induction n as [|n IH]; intros i s h HI Hbody.
  - exists s, h. rewrite Z.add_0_r. done.
  - destruct (Hbody i s h) as (s1 & h1 & E & HI1); [lia|done|].
    destruct (IH (i + 1) s1 h1) as (s2 & h2 & E2 & HI2); [done| |].
    { intros j s' h' Hj. apply Hbody. lia. }
    exists s2, h2. split.
    + simpl. rewrite (bind_run _ _ _ _ _ E). done.
    + replace (i + Z.of_nat (S n)) with (i + 1 + Z.of_nat n) by lia. done.
Qed.

Lemma for_range_inv {St} (I : Z → St → heap → Prop)
    (body : Z → St → M (ctl St)) lo hi s h :
  lo ≤ hi →
  I lo s h →
  (∀ j s h, lo ≤ j < hi → I j s h →
     ∃ s' h', body j s h = Some (Continue s', h') ∧ I (j + 1) s' h') →
  ∃ s' h', for_range lo hi body s h = Some (s', h') ∧ I hi s' h'.
Proof.
  intros Hle HI Hbody. unfold for_range.
  destruct (for_upto_inv I body (Z.to_nat (hi - lo)) lo s h) as (s' & h' & E & HI');
    [done| |].
  { intros j s' h' Hj. apply Hbody. lia. }
  exists s', h'. split; [done|].
  replace hi with (lo + Z.of_nat (Z.to_nat (hi - lo))) at 1 by lia. done.
Qed.

Lemma for_downto_inv {St} (I : Z → St → heap → Prop)
    (body : Z → St → M (ctl St)) n i s h :
  I i s h →
  (∀ j s h, i - Z.of_nat n < j ≤ i → I j s h →
     ∃ s' h', body j s h = Some (Continue s', h') ∧ I (j - 1) s' h') →
  ∃ s' h', for_downto n i body s h = Some (s', h') ∧ I (i - Z.of_nat n) s' h'.
Proof.
  revert i s h. induction n as [|n IH]; intros i s h HI Hbody.
  - exists s, h. rewrite Z.sub_0_r. done.
  - destruct (Hbody i s h) as (s1 & h1 & E & HI1); [lia|done|].
    destruct (IH (i - 1) s1 h1) as (s2 & h2 & E2 & HI2); [done| |].
    { intros j s' h' Hj. apply Hbody. lia. }
    exists s2, h2. split.
    + simpl. rewrite (bind_run _ _ _ _ _ E). done.
    + replace (i - Z.of_nat (S n)) with (i - 1 - Z.of_nat n) by lia. done.
Qed.

(** ** Reading and writing memory *)

Lemma mapM_id_Some {A} (l : list (option A)) (k : list A) :
  mapM id l = Some k ↔ l = Some <$> k.
Proof.
  rewrite mapM_Some. split.
  - induction 1 as [|x y l' k' Hx _ IH]; [done|]. cbn in *. by rewrite Hx, IH.
  - intros ->. induction k; constructor; done.
Qed.

Lemma load_Some h p n bs :
  load h p n = Some bs ↔
  ∃ B, h !! blk p = Some B ∧ 0 ≤ off p ∧ 0 ≤ n ∧
       off p + n ≤ Z.of_nat (length B) ∧
       take (Z.to_nat n) (drop (Z.to_nat (off p)) B) = Some <$> bs.
Proof.
  unfold load. destruct (h !! blk p) as [B|]; cycle 1.
  { split; [done|]. by intros (B & ? & _). }
  destruct ((0 <=? off p) && (0 <=? n) && (off p + n <=? Z.of_nat (length B))) eqn:E.
  - apply andb_true_iff in E as [E E3]. apply andb_true_iff in E as [E1 E2].
    apply Z.leb_le in E1, E2, E3. rewrite mapM_id_Some. split.
    + intros Hb. by exists B.
    + intros (B' & ? & _ & _ & _ & Hb). by simplify_eq.
  - split; [done|]. intros (B' & ? & ? & ? & ? & ?). simplify_eq.
    apply andb_false_iff in E as [E|E]; [apply andb_false_iff in E as [E|E]|];
      apply Z.leb_gt in E; lia.
Qed.

Lemma load_length h p n bs : load h p n = Some bs → Z.of_nat (length bs) = n.
Proof.
  rewrite load_Some. intros (B & _ & ? & ? & ? & E).
  apply (f_equal length) in E. rewrite length_fmap, length_take, length_drop in E. lia.
Qed.

Lemma load_app h p a b xs ys :
  load h p a = Some xs → load h (p +ₚ a) b = Some ys →
  load h p (a + b) = Some (xs ++ ys).
Proof.
  rewrite !load_Some. simpl.
  intros (B & HB & ? & ? & ? & E1) (B' & HB' & ? & ? & ? & E2). simplify_eq.
  exists B. repeat split; try done; try lia.
  rewrite fmap_app, <- E1, <- E2.
  rewrite Z2Nat.inj_add, <- take_take_drop, drop_drop by lia.
  by rewrite Z2Nat.inj_add by lia.
Qed.

Lemma take_drop_take {A} (l : list A) (a m n : nat) :
  (a + m ≤ n)%nat → take m (drop a (take n l)) = take m (drop a l).
Proof.
  intros. rewrite (take_drop_commute (take n l)), take_take, Nat.min_l by lia.
  by rewrite <- take_drop_commute.
Qed.

Lemma load_sub h p n bs a m :
  load h p n = Some bs → 0 ≤ a → 0 ≤ m → a + m ≤ n →
  load h (p +ₚ a) m = Some (take (Z.to_nat m) (drop (Z.to_nat a) bs)).
Proof.
  rewrite !load_Some. simpl. intros (B & HB & ? & ? & ? & E) ? ? ?.
  exists B. repeat split; try done; try lia.
  rewrite fmap_take, fmap_drop, <- E.
  rewrite Z2Nat.inj_add, <- drop_drop by lia.
  by rewrite take_drop_take by lia.
Qed.

Lemma heap_extends_refl h : heap_extends h h.
Proof. by intros b B. Qed.

Lemma heap_extends_trans h1 h2 h3 :
  heap_extends h1 h2 → heap_extends h2 h3 → heap_extends h1 h3.
Proof. intros H1 H2 b B Hb. by apply H2, H1. Qed.

Lemma load_extends h h' p n bs :
  heap_extends h h' → load h p n = Some bs → load h' p n = Some bs.
Proof.
  intros Hext. rewrite !load_Some. intros (B & HB & ?). exists B. split; [|done].
  by apply Hext.
Qed.

Lemma store_Some h p bs B :
  h !! blk p = Some B → 0 ≤ off p →
  off p + Z.of_nat (length bs) ≤ Z.of_nat (length B) →
  store h p bs =
    Some (<[blk p := take (Z.to_nat (off p)) B ++ (Some <$> bs) ++
                     drop (Z.to_nat (off p) + length bs) B]> h).
Proof.
  intros HB ? ?. unfold store. rewrite HB.
  destruct (0 <=? off p) eqn:E1; [|apply Z.leb_gt in E1; lia].
  destruct (off p + Z.of_nat (length bs) <=? Z.of_nat (length B)) eqn:E2;
    [done|apply Z.leb_gt in E2; lia].
Qed.

Lemma store_inv h p bs h' :
  store h p bs = Some h' →
  ∃ B, h !! blk p = Some B ∧ 0 ≤ off p ∧
       off p + Z.of_nat (length bs) ≤ Z.of_nat (length B) ∧
       h' = <[blk p := take (Z.to_nat (off p)) B ++ (Some <$> bs) ++
                       drop (Z.to_nat (off p) + length bs) B]> h.
Proof.
  unfold store. destruct (h !! blk p) as [B|]; [|done].
  destruct (0 <=? off p) eqn:E1; [|done].
  destruct (off p + Z.of_nat (length bs) <=? Z.of_nat (length B)) eqn:E2; [|done].
  simpl. intros [= <-]. exists B. apply Z.leb_le in E1, E2. done.
Qed.

Lemma store_other h p bs h' b :
  store h p bs = Some h' → b ≠ blk p → h' !! b = h !! b.
Proof.
  intros (B & _ & _ & _ & ->)%store_inv ?. by rewrite list_lookup_insert_ne.
Qed.

Lemma store_load_other h p bs h' q n :
  store h p bs = Some h' → blk q ≠ blk p → load h' q n = load h q n.
Proof. intros Hs ?. unfold load. by rewrite (store_other _ _ _ _ _ Hs). Qed.

Lemma store_block h p bs h' B :
  store h p bs = Some h' → h !! blk p = Some B →
  ∃ B', h' !! blk p = Some B' ∧ length B' = length B.
Proof.
  intros (B0 & HB0 & ? & ? & ->)%store_inv HB. simplify_eq.
  eexists. split.
  - apply list_lookup_insert_eq. by eapply lookup_lt_Some.
  - rewrite !length_app, length_take, length_fmap, length_drop. lia.
Qed.

Lemma store_load_same h p bs h' :
  store h p bs = Some h' → load h' p (Z.of_nat (length bs)) = Some bs.
Proof.
  intros (B & HB & ? & ? & ->)%store_inv. apply load_Some.
  eexists. split; [apply list_lookup_insert_eq; by eapply lookup_lt_Some|].
  split; [done|]. split; [lia|]. split.
  { rewrite !length_app, length_take, length_fmap, length_drop. lia. }
  rewrite drop_app_length' by (rewrite length_take; lia).
  rewrite Nat2Z.id. by rewrite take_app_length' by (by rewrite length_fmap).
Qed.

Lemma store_load_before h p bs h' q n xs :
  store h p bs = Some h' → blk q = blk p → off q + n ≤ off p →
  load h q n = Some xs → load h' q n = Some xs.
Proof.
  intros (B & HB & ? & ? & ->)%store_inv Hq Hle.
  rewrite !load_Some. intros (B' & HB' & ? & ? & ? & E).
  rewrite Hq in HB'. simplify_eq.
  eexists. split; [rewrite Hq; apply list_lookup_insert_eq; by eapply lookup_lt_Some|].
  split; [done|]. split; [done|]. split.
  { rewrite !length_app, length_take, length_fmap, length_drop. lia. }
  rewrite <- E.
  rewrite drop_app_le by (rewrite length_take; lia).
  rewrite take_app_le by (rewrite length_drop, length_take; lia).
  rewrite <- (Nat.sub_0_r (Z.to_nat (off p))) at 1.
  rewrite <- (take_drop_take B (Z.to_nat (off q)) (Z.to_nat n) (Z.to_nat (off p))) by lia.
  by rewrite Nat.sub_0_r.
Qed.

(** ** Arithmetic on [size_t] inside a valid view *)

Lemma sz_small z : 0 ≤ z ≤ PTRDIFF_MAX → sz z = z.
Proof. unfold sz, SIZE_MOD, PTRDIFF_MAX. intros. apply Z.mod_small. lia. Qed.

Lemma mul_in_range i n es :
  0 ≤ i ≤ n → 0 < es → n * es ≤ PTRDIFF_MAX → 0 ≤ i * es ≤ PTRDIFF_MAX.
Proof. intros. nia. Qed.

Lemma szmul_small i n es :
  0 ≤ i ≤ n → 0 < es → n * es ≤ PTRDIFF_MAX → szmul i es = i * es.
Proof. intros. unfold szmul. apply sz_small. by eapply mul_in_range. Qed.

Lemma len_in_range n es :
  0 ≤ n → 0 < es → n * es ≤ PTRDIFF_MAX → 0 ≤ n ≤ PTRDIFF_MAX.
Proof. intros. nia. Qed.

(** ** Elements laid out one after the other *)

Lemma length_mjoin_uniform (l : list (list byte)) es :
  Forall (λ c, Z.of_nat (length c) = es) l →
  Z.of_nat (length (mjoin l)) = Z.of_nat (length l) * es.
Proof.
  induction 1 as [|c l Hc _ IH]; [done|].
  simpl. rewrite length_app. lia.
Qed.

Lemma mjoin_chunk (l : list (list byte)) es (i : nat) c :
  Forall (λ c, Z.of_nat (length c) = es) l → l !! i = Some c →
  take (Z.to_nat es) (drop (Z.to_nat (Z.of_nat i * es)) (mjoin l)) = c.
Proof.
  intros Hl. revert i. induction Hl as [|c' l Hc' Hl IH]; intros i Hi; [done|].
  change (mjoin (c' :: l)) with (c' ++ mjoin l).
  destruct i as [|i].
  - simpl in Hi. simplify_eq. simpl. apply take_app_length'. lia.
  - simpl in Hi. rewrite drop_app_ge by nia.
    replace (Z.to_nat (Z.of_nat (S i) * es) - length c')%nat
      with (Z.to_nat (Z.of_nat i * es)) by nia.
    by apply IH.
Qed.

(** ** Valid views *)

Lemma view_elem h it l (i : nat) c :
  view h it l → l !! i = Some c →
  load h (data it +ₚ Z.of_nat i * elem_size it) (elem_size it) = Some c.
Proof.
  intros (Hes & Hmax & Hlen & Hall & Hload) Hi.
  pose proof (lookup_lt_Some _ _ _ Hi) as Hlt.
  rewrite (load_sub _ _ _ _ (Z.of_nat i * elem_size it) (elem_size it) Hload)
    by nia.
  f_equal. by apply mjoin_chunk.
Qed.

Lemma view_extends h h' it l :
  heap_extends h h' → view h it l → view h' it l.
Proof.
  intros Hext (Hes & Hmax & Hlen & Hall & Hload).
  repeat split; try done. by eapply load_extends.
Qed.

Lemma view_block h it l : view h it l → (blk (data it) < length h)%nat.
Proof.
  intros (_ & _ & _ & _ & (B & HB & _)%load_Some). by eapply lookup_lt_Some.
Qed.

Lemma view_elems h it l : view h it l → elems h it = Some l.
Proof.
  intros Hv. pose proof Hv as (Hes & Hmax & Hlen & Hall & Hload).
  unfold elems. rewrite <- Hlen, Nat2Z.id.
  assert (∀ k (n : nat), drop n l = k →
    read_elems h (data it +ₚ Z.of_nat n * elem_size it) (elem_size it) (length k)
      = Some k) as Hrd.
  { induction k as [|c k IH]; intros n Hn; [done|]. simpl.
    assert (l !! n = Some c) as Hc.
    { rewrite <- (Nat.add_0_r n), <- lookup_drop, Hn. done. }
    rewrite (view_elem _ _ _ _ _ Hv Hc). simpl.
    replace (data it +ₚ Z.of_nat n * elem_size it +ₚ elem_size it)
      with (data it +ₚ Z.of_nat (S n) * elem_size it)
      by (unfold ptr_add; simpl; f_equal; lia).
    rewrite IH; [done|]. rewrite (drop_S _ _ _ Hc) in Hn. congruence. }
  specialize (Hrd l 0%nat eq_refl).
  replace (data it +ₚ Z.of_nat 0 * elem_size it) with (data it) in Hrd; [done|].
  destruct (data it). unfold ptr_add. simpl. f_equal. lia.
Qed.

(** ** Output buffers *)

Lemma malloc_run h n :
  0 ≤ n →
  ∃ h', malloc n h = Some (Ptr (length h) 0, h') ∧
        buffer h' (length h) n [] ∧ heap_extends h h' ∧
        length h' = S (length h).
Proof.
  intros Hn. eexists. split; [reflexivity|]. split; [|split].
  - split.
    + eexists. split; [apply list_lookup_middle; done|].
      rewrite length_replicate. lia.
    + apply load_Some. eexists. split; [apply list_lookup_middle; done|].
      simpl. repeat split; try done. lia.
  - intros b B Hb. by apply lookup_app_l_Some.
  - rewrite length_app. simpl. lia.
Qed.

Lemma buffer_push h ob cap out c p :
  buffer h ob cap out →
  p = Ptr ob (Z.of_nat (length (mjoin out))) →
  Z.of_nat (length (mjoin out)) + Z.of_nat (length c) ≤ cap →
  ∃ h', store h p c = Some h' ∧ buffer h' ob cap (out ++ [c]) ∧
        (∀ b, b ≠ ob → h' !! b = h !! b).
Proof.
  intros [(B & HB & Hcap) Hload] -> Hroom.
  pose proof (store_Some h (Ptr ob (Z.of_nat (length (mjoin out)))) c B HB) as Hs.
  simpl in Hs. specialize (Hs ltac:(lia) ltac:(lia)).
  eexists. split; [exact Hs|]. split; [split|].
  - destruct (store_block _ _ _ _ _ Hs HB) as (B' & HB' & HlenB').
    exists B'. split; [done|lia].
  - rewrite join_app. simpl. rewrite app_nil_r, length_app, Nat2Z.inj_add.
    apply load_app.
    + eapply store_load_before; [exact Hs|done|simpl; lia|done].
    + unfold ptr_add. simpl. by apply store_load_same in Hs.
  - intros b Hb. eapply store_other; [exact Hs|done].
Qed.

Lemma buffer_frame h p bs h' ob cap out :
  store h p bs = Some h' → blk p ≠ ob →
  buffer h ob cap out → buffer h' ob cap out.
Proof.
  intros Hs Hne [(B & HB & Hcap) Hload]. split.
  - exists B. split; [|done]. by rewrite (store_other _ _ _ _ _ Hs).
  - by rewrite (store_load_other _ _ _ _ _ _ Hs).
Qed.

Lemma buffer_view h ob cap out es :
  buffer h ob cap out → 0 < es →
  Forall (λ c, Z.of_nat (length c) = es) out →
  Z.of_nat (length out) * es ≤ PTRDIFF_MAX →
  view h {| data := Ptr ob 0; len := Z.of_nat (length out); elem_size := es |} out.
Proof.
  intros [_ Hload] ? Hall ?. repeat split; try done. simpl.
  by rewrite <- (length_mjoin_uniform _ _ Hall).
Qed.

Lemma heap_extends_store h0 h p bs h' :
  heap_extends h0 h → store h p bs = Some h' → h0 !! blk p = None →
  heap_extends h0 h'.
Proof.
  intros Hext Hs Hfresh b B Hb.
  rewrite (store_other _ _ _ _ _ Hs); [by apply Hext|]. congruence.
Qed.

Lemma memcpy_run h dst src n bs h' :
  load h src n = Some bs → store h dst bs = Some h' →
  memcpy dst src n h = Some ((), h').
Proof.
  intros Hl Hs. unfold memcpy.
  rewrite (bind_run _ _ h bs h) by (unfold load_bytes; by rewrite Hl).
  unfold store_bytes. by rewrite Hs.
Qed.

(** ** [iter_reverse] *)

Lemma iter_reverse_spec h it l :
  view h it l →
  ∃ it' h', iter_reverse it h = Some (it', h') ∧
    view h' it' (reverse l) ∧ heap_extends h h' ∧
    len it' = len it ∧ elem_size it' = elem_size it.
Proof.
  intros Hv. pose proof Hv as (Hes & Hmax & Hlen & Hall & Hload).
  pose proof (view_block _ _ _ Hv) as Hblk.
  assert (0 ≤ len it) as Hlen0 by lia.
  unfold iter_reverse.
  rewrite (szmul_small (len it) (len it) (elem_size it)) by lia.
  destruct (malloc_run h (len it * elem_size it)) as (h0 & Hm & Hbuf0 & Hext0 & _);
    [nia|].
  rewrite (bind_run _ _ _ _ _ Hm).
  set (ob := length h) in *.
  destruct (for_range_inv
    (λ i (_ : unit) hk, heap_extends h hk ∧
       buffer hk ob (len it * elem_size it) (take (Z.to_nat i) (reverse l)))
    (λ _i (_ : unit),
      memcpy (Ptr ob 0 +ₚ szmul _i (elem_size it))
        (data it +ₚ szmul (szsub (szsub (len it) 1) _i) (elem_size it))
        (elem_size it);; mret (Continue ()))
    0 (len it) () h0) as ([] & h' & Hloop & Hext & Hbuf); [done|done| |].
  { intros j [] hk Hj [Hext Hbuf].
    rewrite (szmul_small j (len it) (elem_size it)) by lia.
    assert (szsub (szsub (len it) 1) j = len it - 1 - j) as ->.
    { pose proof (len_in_range _ _ Hlen0 Hes Hmax).
      unfold szsub. rewrite (sz_small (len it - 1)) by lia. apply sz_small. lia. }
    rewrite (szmul_small (len it - 1 - j) (len it) (elem_size it)) by lia.
    assert (reverse l !! Z.to_nat j = l !! Z.to_nat (len it - 1 - j)) as Hrev.
    { rewrite reverse_lookup by lia. f_equal. lia. }
    destruct (lookup_lt_is_Some_2 l (Z.to_nat (len it - 1 - j))) as [c Hc]; [lia|].
    rewrite Hc in Hrev.
    assert (Forall (λ c, Z.of_nat (length c) = elem_size it)
              (take (Z.to_nat j) (reverse l))) as Hall'.
    { by apply Forall_take, Forall_reverse. }
    pose proof (length_mjoin_uniform _ _ Hall') as Hlenj.
    rewrite length_take, length_reverse in Hlenj.
    assert (Z.of_nat (length c) = elem_size it) as Hlenc.
    { rewrite Forall_lookup in Hall. by eapply Hall. }
    destruct (buffer_push hk ob (len it * elem_size it)
                (take (Z.to_nat j) (reverse l)) c
                (Ptr ob 0 +ₚ j * elem_size it)) as (hk' & Hs & Hbuf' & Hoth);
      [done|unfold ptr_add; simpl; f_equal; lia|nia|].
    exists (), hk'. split.
    - erewrite bind_run; [reflexivity|].
      eapply memcpy_run; [|exact Hs].
      pose proof (view_elem _ _ _ _ _ (view_extends _ _ _ _ Hext Hv) Hc) as Hld.
      rewrite Z2Nat.id in Hld by lia. done.
    - split.
      + eapply heap_extends_store; [done|exact Hs|]. simpl.
        apply lookup_ge_None. unfold ob. lia.
      + replace (Z.to_nat (j + 1)) with (S (Z.to_nat j)) by lia.
        by rewrite (take_S_r _ _ _ Hrev). }
  exists {| data := Ptr ob 0; len := len it; elem_size := elem_size it |}, h'.
  split; [|split; [|done]].
  - rewrite (bind_run _ _ _ _ _ Hloop). done.
  - rewrite take_ge in Hbuf by (rewrite length_reverse; lia).
    rewrite <- Hlen, <- (length_reverse l).
    apply (buffer_view _ _ _ _ _ Hbuf); [done|by apply Forall_reverse|].
    rewrite length_reverse. lia.
Qed.

(** ** Typed reads, folds and searches *)

Section TypedLemmas.
Context {T : Type} `{CTypeOk T}.

Lemma load_elem_run h it (vs : list T) (i : nat) v :
  typed_view h it vs → vs !! i = Some v →
  load_elem T (data it) (Z.of_nat i) h = Some (v, h).
Proof.
  intros (Hes & l & Hv & ->) Hi.
  rewrite list_lookup_fmap in Hi.
  destruct (l !! i) as [c|] eqn:Hc; simplify_eq/=.
  unfold load_elem. rewrite <- Hes.
  erewrite bind_run; [reflexivity|].
  unfold load_bytes. by rewrite (view_elem _ _ _ _ _ Hv Hc).
Qed.

Lemma typed_view_length h it (vs : list T) :
  typed_view h it vs → Z.of_nat (length vs) = len it.
Proof.
  intros (_ & l & (_ & _ & Hlen & _) & ->). by rewrite length_fmap.
Qed.

Lemma typed_view_range h it (vs : list T) :
  typed_view h it vs → 0 ≤ len it ≤ PTRDIFF_MAX.
Proof.
  intros (_ & l & (? & ? & ? & _) & _). apply (len_in_range _ (elem_size it)); lia.
Qed.

Lemma iter_foldl_spec {Acc} h it (vs : list T) (init : Acc) expr :
  typed_view h it vs →
  iter_foldl it init expr h = Some (foldl expr init vs, h).
Proof.
  intros Hv. pose proof (typed_view_length _ _ _ Hv) as Hlen.
  unfold iter_foldl.
  destruct (for_range_inv
    (λ i acc hk, hk = h ∧ acc = foldl expr init (take (Z.to_nat i) vs))
    (λ _i acc, x ← load_elem T (data it) _i; mret (Continue (expr acc x)))
    0 (len it) init h) as (r & h' & Hloop & -> & ->); [lia|done| |].
  { intros j acc hk Hj [-> ->].
    destruct (lookup_lt_is_Some_2 vs (Z.to_nat j)) as [v Hv']; [lia|].
    eexists _, h. split.
    - erewrite bind_run; [reflexivity|].
      rewrite <- (Z2Nat.id j) by lia. by eapply load_elem_run.
    - split; [done|].
      replace (Z.to_nat (j + 1)) with (S (Z.to_nat j)) by lia.
      by rewrite (take_S_r _ _ _ Hv'), foldl_snoc. }
  by rewrite Hloop, take_ge by lia.
Qed.

Lemma iter_foldr_spec {Acc} h it (vs : list T) (init : Acc) expr :
  typed_view h it vs →
  iter_foldr it init expr h = Some (foldl expr init (reverse vs), h).
Proof.
  intros Hv. pose proof (typed_view_length _ _ _ Hv) as Hlen.
  pose proof (typed_view_range _ _ _ Hv) as Hrange.
  unfold iter_foldr, for_range_down, to_ptrdiff.
  destruct (len it <=? PTRDIFF_MAX) eqn:E; [|apply Z.leb_gt in E; lia].
  destruct (for_downto_inv
    (λ j acc hk, hk = h ∧
       acc = foldl expr init (take (Z.to_nat (len it - 1 - j)) (reverse vs)))
    (λ _i acc, x ← load_elem T (data it) _i; mret (Continue (expr acc x)))
    (Z.to_nat (len it - 1 + 1)) (len it - 1) init h)
    as (r & h' & Hloop & -> & ->).
  { split; [done|]. by replace (len it - 1 - (len it - 1)) with 0 by lia. }
  { intros j acc hk Hj [-> ->].
    destruct (lookup_lt_is_Some_2 vs (Z.to_nat j)) as [v Hv']; [lia|].
    eexists _, h. split.
    - erewrite bind_run; [reflexivity|].
      rewrite <- (Z2Nat.id j) by lia. by eapply load_elem_run.
    - split; [done|].
      replace (Z.to_nat (len it - 1 - (j - 1)))
        with (S (Z.to_nat (len it - 1 - j))) by lia.
      assert (reverse vs !! Z.to_nat (len it - 1 - j) = Some v) as Hrev.
      { rewrite reverse_lookup by lia. rewrite <- Hv'. f_equal. lia. }
      by rewrite (take_S_r _ _ _ Hrev), foldl_snoc. }
  rewrite Hloop. rewrite take_ge by (rewrite length_reverse; lia). done.
Qed.

(** A loop that leaves the heap alone and breaks with [v] at the first
    index whose element passes the test [t]. *)
Lemma for_upto_search {St X} (xs : list X) (t : X → bool) i
    (body : Z → St → M (ctl St)) (v s : St) h :
  (∀ (k : nat) x s, xs !! k = Some x →
     body (i + Z.of_nat k) s h =
       Some (if t x then Break v else Continue s, h)) →
  for_upto (length xs) i body s h = Some (if existsb t xs then v else s, h).
Proof.
  revert i. induction xs as [|x xs IH]; intros i Hbody; [done|].
  simpl. erewrite bind_run; cycle 1.
  { rewrite <- (Z.add_0_r i). by apply (Hbody 0%nat x s). }
  destruct (t x); [done|]. simpl. apply IH.
  intros k y s' Hk. replace (i + 1 + Z.of_nat k) with (i + Z.of_nat (S k)) by lia.
  by apply Hbody.
Qed.

Lemma iter_any_spec h it (vs : list T) pred :
  typed_view h it vs →
  iter_any it pred h = Some (if existsb pred vs then 1 else 0, h).
Proof.
  intros Hv. pose proof (typed_view_length _ _ _ Hv) as Hlen.
  unfold iter_any, for_range.
  replace (Z.to_nat (len it - 0)) with (length vs) by lia.
  apply for_upto_search. intros k x s Hk.
  erewrite bind_run; [|by eapply load_elem_run]. by destruct (pred x).
Qed.

Lemma iter_all_spec h it (vs : list T) pred :
  typed_view h it vs →
  iter_all it pred h = Some (if forallb pred vs then 1 else 0, h).
Proof.
  intros Hv. pose proof (typed_view_length _ _ _ Hv) as Hlen.
  unfold iter_all, for_range.
  replace (Z.to_nat (len it - 0)) with (length vs) by lia.
  rewrite (for_upto_search vs (negb ∘ pred) 0 _ 0 1 h).
  - f_equal. f_equal. clear. induction vs as [|x xs IH]; [done|]. simpl.
    destruct (pred x); simpl; [|done]. apply IH.
  - intros k x s Hk.
    erewrite bind_run; [|by eapply load_elem_run]. simpl. by destruct (pred x).
Qed.
End TypedLemmas.

(** ** [iter_partition] *)

Lemma buffer_extends h h' ob cap out :
  heap_extends h h' → buffer h ob cap out → buffer h' ob cap out.
Proof.
  intros Hext [(B & HB & Hcap) Hload]. split.
  - exists B. split; [by apply Hext|done].
  - by eapply load_extends.
Qed.

Ltac loop_rule I h :=
  match goal with
  | |- context [for_range ?lo ?hi ?body ?s] =>
      pose proof (for_range_inv I body lo hi s h) as Hrule
  end.

Section Partition.
Context {T : Type} `{CTypeOk T}.

Lemma encode_all_length (vs : list T) :
  Forall (λ c, Z.of_nat (length c) = sizeof) (encode <$> vs).
Proof. apply Forall_fmap, Forall_forall. intros v _. apply encode_length. Qed.

Lemma typed_view_canonical h it (vs : list T) v :
  typed_view h it vs → v ∈ vs → decode (encode v) = v.
Proof.
  intros (Hes & l & (_ & _ & _ & Hall & _) & ->) (c & -> & Hc)%list_elem_of_fmap.
  apply decode_encode. rewrite Forall_forall in Hall. rewrite <- Hes. by apply Hall.
Qed.

Lemma buffer_typed_view h0 it (vs : list T) h ob cap (ws : list T) :
  typed_view h0 it vs → ws ⊆ vs →
  buffer h ob cap (encode <$> ws) →
  Z.of_nat (length ws) ≤ len it →
  typed_view h {| data := Ptr ob 0; len := Z.of_nat (length ws);
                  elem_size := sizeof |} ws.
Proof.
  intros Hv Hsub Hbuf Hle. split; [done|].
  exists (encode <$> ws). split.
  - rewrite <- (length_fmap encode ws). apply (buffer_view _ _ _ _ _ Hbuf).
    + apply sizeof_pos.
    + apply encode_all_length.
    + rewrite length_fmap. destruct Hv as (Hes & l & (? & ? & ? & _) & _).
      rewrite Hes in *. pose proof sizeof_pos. nia.
  - rewrite <- list_fmap_compose. symmetry. rewrite <- (list_fmap_id ws) at 2.
    apply list_fmap_ext. intros i v Hi. simpl.
    eapply typed_view_canonical; [done|]. apply Hsub. by eapply list_elem_of_lookup_2.
Qed.

Lemma iter_partition_spec h it (vs : list T) (pred : T → bool) :
  typed_view h it vs →
  ∃ r h', iter_partition it pred h = Some (r, h') ∧
    typed_view h' (yes r) (filter (λ x, pred x) vs) ∧
    typed_view h' (no r) (filter (λ x, ¬ pred x) vs) ∧
    typed_view h' it vs ∧
    heap_extends h h' ∧
    blk (data (yes r)) ≠ blk (data (no r)).
Proof.
  intros Hv. pose proof (typed_view_length _ _ _ Hv) as Hlen.
  pose proof (typed_view_range _ _ _ Hv) as Hrange.
  pose proof Hv as (Hes & l & Hvl & Hvs).
  pose proof Hvl as (Hes0 & Hmax & _).
  pose proof (view_block _ _ _ Hvl) as Hblk.
  rewrite Hes in Hes0, Hmax.
  unfold iter_partition.
  rewrite (szmul_small (len it) (len it) sizeof) by lia.
  destruct (malloc_run h (len it * sizeof)) as (h0 & Hm0 & Hbuf0 & Hext0 & Hl0);
    [nia|].
  destruct (malloc_run h0 (len it * sizeof)) as (h1 & Hm1 & Hbuf1 & Hext1 & Hl1);
    [nia|].
  rewrite (bind_run _ _ _ _ _ Hm0), (bind_run _ _ _ _ _ Hm1).
  set (yb := length h) in *. set (nb := length h0) in *.
  assert (yb ≠ nb) as Hne by lia.
  set (cap := len it * sizeof) in *.
  loop_rule (λ i (yn : Z * Z) hk, heap_extends h hk ∧
    yn.1 = Z.of_nat (length (filter (λ x, pred x) (take (Z.to_nat i) vs))) ∧
    yn.2 = Z.of_nat (length (filter (λ x, ¬ pred x) (take (Z.to_nat i) vs))) ∧
    buffer hk yb cap (encode <$> filter (λ x, pred x) (take (Z.to_nat i) vs)) ∧
    buffer hk nb cap (encode <$> filter (λ x, ¬ pred x) (take (Z.to_nat i) vs)))
    h1.
  destruct Hrule as ([y n] & h' & Hloop & Hext & Hy & Hn & Hby & Hbn); [lia| | |].
  { simpl. split; [by eapply heap_extends_trans|].
    split; [done|]. split; [done|]. split; [by eapply buffer_extends|done]. }
  { intros j [y n] hk Hj (Hext & Hy & Hn & Hby & Hbn). simpl in Hy, Hn.
    destruct (lookup_lt_is_Some_2 vs (Z.to_nat j)) as [v Hv']; [lia|].
    assert (load_elem T (data it) j hk = Some (v, hk)) as Hld.
    { rewrite <- (Z2Nat.id j) by lia.
      eapply load_elem_run; [|done].
      split; [done|]. exists l. split; [|done]. by eapply view_extends. }
    rewrite (bind_run _ _ _ _ _ Hld).
    replace (Z.to_nat (j + 1)) with (S (Z.to_nat j)) by lia.
    rewrite (take_S_r _ _ _ Hv'), !filter_app.
    pose proof (length_filter (λ x, pred x) (take (Z.to_nat j) vs)) as Hly.
    pose proof (length_filter (λ x, ¬ pred x) (take (Z.to_nat j) vs)) as Hln.
    rewrite length_take in Hly, Hln.
    pose proof (length_mjoin_uniform _ _
      (encode_all_length (filter (λ x, pred x) (take (Z.to_nat j) vs)))) as Hjy.
    pose proof (length_mjoin_uniform _ _
      (encode_all_length (filter (λ x, ¬ pred x) (take (Z.to_nat j) vs)))) as Hjn.
    rewrite length_fmap in Hjy, Hjn.
    pose proof (encode_length v) as Hlv.
    destruct (pred v) eqn:Hp.
    - rewrite (filter_cons_True (λ x, pred x)), (filter_cons_False (λ x, ¬ pred x))
        by (rewrite ?Hp; simpl; tauto).
      rewrite !filter_nil, app_nil_r, fmap_app. simpl.
      destruct (buffer_push hk yb cap _ (encode v) (Ptr yb 0 +ₚ y * sizeof) Hby)
        as (hk' & Hs & Hby' & Hoth);
        [unfold ptr_add; simpl; f_equal; lia|unfold cap; nia|].
      exists (szadd y 1, n), hk'. split.
      + unfold store_elem.
        erewrite bind_run; [reflexivity|]. unfold store_bytes. by rewrite Hs.
      + simpl. split; [|split; [|split; [done|split; [done|]]]].
        * eapply heap_extends_store; [done|exact Hs|]. simpl.
          apply lookup_ge_None. unfold yb. lia.
        * rewrite length_app. simpl. unfold szadd. rewrite sz_small; lia.
        * eapply buffer_frame; [exact Hs|simpl; lia|done].
    - rewrite (filter_cons_False (λ x, pred x)), (filter_cons_True (λ x, ¬ pred x))
        by (rewrite ?Hp; simpl; tauto).
      rewrite !filter_nil, app_nil_r, fmap_app. simpl.
      destruct (buffer_push hk nb cap _ (encode v) (Ptr nb 0 +ₚ n * sizeof) Hbn)
        as (hk' & Hs & Hbn' & Hoth);
        [unfold ptr_add; simpl; f_equal; lia|unfold cap; nia|].
      exists (y, szadd n 1), hk'. split.
      + unfold store_elem.
        erewrite bind_run; [reflexivity|]. unfold store_bytes. by rewrite Hs.
      + simpl. split; [|split; [done|split; [|split; [|done]]]].
        * eapply heap_extends_store; [done|exact Hs|]. simpl.
          apply lookup_ge_None. unfold nb, yb. lia.
        * rewrite length_app. simpl. unfold szadd. rewrite sz_small; lia.
        * eapply buffer_frame; [exact Hs|simpl; lia|done]. }
  rewrite take_ge in Hy, Hn, Hby, Hbn by lia. simpl in Hy, Hn.
  rewrite (bind_run _ _ _ _ _ Hloop). simpl.
  eexists _, h'. split; [reflexivity|]. simpl. rewrite Hy, Hn.
  pose proof (length_filter (λ x, pred x) vs).
  pose proof (length_filter (λ x, ¬ pred x) vs).
  split; [|split; [|split; [|split; [done|done]]]].
  - eapply buffer_typed_view; [exact Hv| |done|lia].
    intros x Hx. by apply list_elem_of_filter in Hx as [_ ?].
  - eapply buffer_typed_view; [exact Hv| |done|lia].
    intros x Hx. by apply list_elem_of_filter in Hx as [_ ?].
  - split; [done|]. exists l. split; [|done]. by eapply view_extends.
Qed.
End Partition.

(** ** [memcmp] *)

Lemma byte_to_Z_inj x y : byte_to_Z x = byte_to_Z y → x = y.
Proof.
  unfold byte_to_Z. intros E%N2Z.inj.
  pose proof (Byte.of_to_N x) as Hx. rewrite E, Byte.of_to_N in Hx. congruence.
Qed.

Lemma bytes_compare_eq xs ys :
  length xs = length ys → bytes_compare xs ys = 0 ↔ xs = ys.
Proof.
  revert ys. induction xs as [|x xs IH]; intros [|y ys] Hlen; simplify_eq/=; [done|].
  destruct (byte_to_Z x <? byte_to_Z y) eqn:E1.
  { apply Z.ltb_lt in E1. split; [done|]. intros [= -> _]. lia. }
  destruct (byte_to_Z y <? byte_to_Z x) eqn:E2.
  { apply Z.ltb_lt in E2. split; [done|]. intros [= -> _]. lia. }
  apply Z.ltb_ge in E1, E2.
  assert (x = y) as -> by (apply byte_to_Z_inj; lia).
  rewrite IH by done. split; congruence.
Qed.

Lemma memcmp_run h p q n xs ys :
  load h p n = Some xs → load h q n = Some ys →
  memcmp p q n h = Some (bytes_compare xs ys, h).
Proof.
  intros Hx Hy. unfold memcmp.
  rewrite (bind_run _ _ h xs h) by (unfold load_bytes; by rewrite Hx).
  rewrite (bind_run _ _ h ys h) by (unfold load_bytes; by rewrite Hy).
  done.
Qed.

(** ** First occurrences *)

Section UniqueList.
Context {A : Type} `{EqDecision A}.
Implicit Types (l out : list A) (x : A).

Lemma unique_list_snoc l x :
  unique_list (l ++ [x]) = unique_step (unique_list l) x.
Proof. unfold unique_list. by rewrite foldl_snoc. Qed.

Lemma unique_step_elem out x y : y ∈ unique_step out x ↔ y ∈ out ∨ y = x.
Proof.
  unfold unique_step. case_bool_decide.
  - split; [tauto|]. intros [?| ->]; done.
  - rewrite elem_of_app, list_elem_of_singleton. done.
Qed.

Lemma unique_list_elem l x : x ∈ unique_list l ↔ x ∈ l.
Proof.
  induction l as [|y l IH] using rev_ind.
  - done.
  - rewrite unique_list_snoc, unique_step_elem, IH, elem_of_app,
      list_elem_of_singleton. done.
Qed.

Lemma unique_list_NoDup l : NoDup (unique_list l).
Proof.
  induction l as [|y l IH] using rev_ind.
  - constructor.
  - rewrite unique_list_snoc. unfold unique_step. case_bool_decide; [done|].
    apply NoDup_app. split; [done|]. split; [|apply NoDup_singleton].
    intros x Hx ->%list_elem_of_singleton. done.
Qed.

Lemma unique_list_length l : (length (unique_list l) ≤ length l)%nat.
Proof.
  induction l as [|y l IH] using rev_ind; [done|].
  rewrite unique_list_snoc, length_app. unfold unique_step.
  case_bool_decide; [simpl; lia|]. rewrite length_app. simpl. lia.
Qed.

Lemma unique_list_Forall (P : A → Prop) l :
  Forall P l → Forall P (unique_list l).
Proof.
  rewrite !Forall_forall. intros HP x Hx. by apply HP, unique_list_elem.
Qed.

Lemma filter_ext_elem (P Q : nat * A → Prop)
    `{∀ ix, Decision (P ix)} `{∀ ix, Decision (Q ix)} (k : list (nat * A)) :
  (∀ ix, ix ∈ k → P ix ↔ Q ix) → filter P k = filter Q k.
Proof.
  induction k as [|ix k IH]; intros Hk; [done|].
  rewrite !filter_cons.
  rewrite IH by (intros iy Hy; apply Hk; by right).
  pose proof (Hk ix ltac:(by left)) as Hix.
  destruct (decide (P ix)), (decide (Q ix)); tauto || done.
Qed.

(** [unique_list l] keeps the element at index [i] exactly when it does
    not occur among the [i] elements before it. *)
Lemma unique_list_first_occurrences l :
  unique_list l = (filter (λ ix, ix.2 ∉ take ix.1 l) (imap pair l)).*2.
Proof.
  induction l as [|x l IH] using rev_ind; [done|].
  rewrite unique_list_snoc, imap_app, filter_app, fmap_app.
  rewrite (filter_ext_elem _ (λ ix, ix.2 ∉ take ix.1 l)); cycle 1.
  { intros [i y] Hiy. simpl.
    apply list_elem_of_lookup in Hiy as [j Hj].
    rewrite list_lookup_imap in Hj.
    destruct (l !! j) as [z|] eqn:Hz; simplify_eq/=.
    apply lookup_lt_Some in Hz. by rewrite take_app_le by lia. }
  rewrite <- IH. simpl. unfold unique_step.
  rewrite filter_cons, filter_nil. simpl. rewrite Nat.add_0_r, take_app_length.
  case_bool_decide as Hin; rewrite unique_list_elem in Hin.
  - rewrite decide_False by tauto. by rewrite app_nil_r.
  - by rewrite decide_True by done.
Qed.
End UniqueList.

(** ** [iter_unique] *)

Lemma existsb_elem {A} `{EqDecision A} (c : A) (out : list A) :
  existsb (λ y, bool_decide (c = y)) out = bool_decide (c ∈ out).
Proof.
  induction out as [|y out IH]; simpl.
  - done.
  - rewrite IH. apply eq_true_iff_eq.
    rewrite orb_true_iff, !bool_decide_eq_true, elem_of_cons. done.
Qed.

Lemma iter_unique_spec h it l :
  view h it l →
  ∃ it' h', iter_unique it h = Some (it', h') ∧
    view h' it' (unique_list l) ∧ heap_extends h h' ∧
    elem_size it' = elem_size it.
Proof.
  intros Hv. pose proof Hv as (Hes & Hmax & Hlen & Hall & Hload).
  pose proof (view_block _ _ _ Hv) as Hblk.
  assert (0 ≤ len it) as Hlen0 by lia.
  pose proof (len_in_range _ _ Hlen0 Hes Hmax) as Hrange.
  unfold iter_unique.
  rewrite (szmul_small (len it) (len it) (elem_size it)) by lia.
  destruct (malloc_run h (len it * elem_size it)) as (h0 & Hm & Hbuf0 & Hext0 & _);
    [nia|].
  rewrite (bind_run _ _ _ _ _ Hm).
  set (ob := length h) in *. set (cap := len it * elem_size it) in *.
  loop_rule (λ i count hk, heap_extends h hk ∧
    count = Z.of_nat (length (unique_list (take (Z.to_nat i) l))) ∧
    buffer hk ob cap (unique_list (take (Z.to_nat i) l))) h0.
  destruct Hrule as (count & h' & Hloop & Hext & Hcount & Hbuf); [lia|done| |].
  { intros j count hk Hj (Hext & -> & Hbuf).
    destruct (lookup_lt_is_Some_2 l (Z.to_nat j)) as [c Hc]; [lia|].
    replace (Z.to_nat (j + 1)) with (S (Z.to_nat j)) by lia.
    rewrite (take_S_r _ _ _ Hc), unique_list_snoc.
    pose proof (unique_list_length (take (Z.to_nat j) l)) as Hlo.
    rewrite length_take in Hlo.
    assert (Forall (λ c, Z.of_nat (length c) = elem_size it)
              (unique_list (take (Z.to_nat j) l))) as Hallout.
    { by apply unique_list_Forall, Forall_take. }
    set (out := unique_list (take (Z.to_nat j) l)) in *.
    assert (view hk {| data := Ptr ob 0; len := Z.of_nat (length out);
                       elem_size := elem_size it |} out) as Hvout.
    { apply (buffer_view _ _ _ _ _ Hbuf); [done|done|nia]. }
    assert (load hk (data it +ₚ j * elem_size it) (elem_size it) = Some c) as Hldc.
    { pose proof (view_elem _ _ _ _ _ (view_extends _ _ _ _ Hext Hv) Hc) as Hld.
      by rewrite Z2Nat.id in Hld by lia. }
    assert (Z.of_nat (length c) = elem_size it) as Hlenc.
    { rewrite Forall_lookup in Hall. by eapply Hall. }
    rewrite (szmul_small j (len it) (elem_size it)) by lia.
    erewrite bind_run; cycle 1.
    { unfold for_range. replace (Z.to_nat (Z.of_nat (length out) - 0))
        with (length out) by lia.
      apply (for_upto_search out (λ y, bool_decide (c = y))).
      intros k y s Hk. pose proof (lookup_lt_Some _ _ _ Hk) as Hklt.
      rewrite Z.add_0_l.
      rewrite (szmul_small (Z.of_nat k) (len it) (elem_size it)) by lia.
      erewrite bind_run; cycle 1.
      { eapply memcmp_run; [exact Hldc|].
        exact (view_elem _ _ _ _ _ Hvout Hk). }
      assert (Z.of_nat (length y) = elem_size it) as Hleny.
      { rewrite Forall_lookup in Hallout. by eapply Hallout. }
      pose proof (bytes_compare_eq c y ltac:(lia)) as Hcmp.
      destruct (bytes_compare c y =? 0) eqn:E.
      - apply Z.eqb_eq in E. by rewrite bool_decide_true by (by apply Hcmp).
      - apply Z.eqb_neq in E. by rewrite bool_decide_false by (by rewrite <- Hcmp). }
    rewrite existsb_elem. unfold unique_step.
    destruct (bool_decide (c ∈ out)) eqn:Hin; simpl.
    - exists (Z.of_nat (length out)), hk. done.
    - pose proof (length_mjoin_uniform _ _ Hallout) as Hjoin.
      destruct (buffer_push hk ob cap out c
                  (Ptr ob 0 +ₚ Z.of_nat (length out) * elem_size it) Hbuf)
        as (hk' & Hs & Hbuf' & Hoth);
        [unfold ptr_add; simpl; f_equal; lia|unfold cap; nia|].
      rewrite (szmul_small (Z.of_nat (length out)) (len it) (elem_size it)) by lia.
      exists (szadd (Z.of_nat (length out)) 1), hk'. split.
      + erewrite bind_run; [reflexivity|]. eapply memcpy_run; [exact Hldc|exact Hs].
      + split; [|split; [|done]].
        * eapply heap_extends_store; [done|exact Hs|]. simpl.
          apply lookup_ge_None. unfold ob. lia.
        * rewrite length_app. simpl. unfold szadd. rewrite sz_small; lia. }
  rewrite take_ge in Hcount, Hbuf by lia.
  rewrite (bind_run _ _ _ _ _ Hloop).
  eexists _, h'. split; [reflexivity|]. split; [|done].
  rewrite Hcount. pose proof (unique_list_length l).
  apply (buffer_view _ _ _ _ _ Hbuf); [done|by apply unique_list_Forall|nia].
Qed.

(** ** Borrowing views: [iter_take], [iter_drop], [iter_slice] *)

Lemma ptr_add_0 p : p +ₚ 0 = p.
Proof. destruct p. unfold ptr_add. simpl. f_equal. lia. Qed.

Lemma mjoin_drop (l : list (list byte)) es (k : nat) :
  Forall (λ c, Z.of_nat (length c) = es) l →
  drop (Z.to_nat (Z.of_nat k * es)) (mjoin l) = mjoin (drop k l).
Proof.
  intros Hl. revert k. induction Hl as [|c l Hc Hl IH]; intros k.
  - simpl. by rewrite !drop_nil.
  - change (mjoin (c :: l)) with (c ++ mjoin l). destruct k as [|k]; [done|].
    rewrite drop_app_ge by nia. simpl. rewrite <- IH. f_equal. nia.
Qed.

Lemma mjoin_take (l : list (list byte)) es (k : nat) :
  Forall (λ c, Z.of_nat (length c) = es) l →
  take (Z.to_nat (Z.of_nat k * es)) (mjoin l) = mjoin (take k l).
Proof.
  intros Hl. revert k. induction Hl as [|c l Hc Hl IH]; intros k.
  - simpl. by rewrite !take_nil.
  - change (mjoin (c :: l)) with (c ++ mjoin l). destruct k as [|k]; [done|].
    rewrite take_app_ge by nia. simpl. rewrite <- IH. do 2 f_equal. nia.
Qed.

Lemma sub_view h it l (s k : nat) :
  view h it l → Z.of_nat s + Z.of_nat k ≤ len it →
  view h {| data := data it +ₚ Z.of_nat s * elem_size it; len := Z.of_nat k;
            elem_size := elem_size it |} (take k (drop s l)).
Proof.
  intros (Hes & Hmax & Hlen & Hall & Hload) Hle. split; [done|]. simpl.
  split; [nia|]. split; [rewrite length_take, length_drop; lia|].
  split; [by apply Forall_take, Forall_drop|].
  rewrite (load_sub _ _ _ _ (Z.of_nat s * elem_size it)
             (Z.of_nat k * elem_size it) Hload) by nia.
  f_equal. rewrite (mjoin_drop _ _ _ Hall).
  apply mjoin_take. by apply Forall_drop.
Qed.

Lemma clamp_min n m :
  0 ≤ n < SIZE_MOD → (if sz n <? m then sz n else m) = Z.min n m.
Proof.
  intros Hn. unfold sz. rewrite Z.mod_small by done.
  destruct (n <? m) eqn:E; [apply Z.ltb_lt in E|apply Z.ltb_ge in E]; lia.
Qed.

Lemma iter_take_view h it l n :
  view h it l → 0 ≤ n < SIZE_MOD →
  view h (iter_take it n) (take (Z.to_nat n) l).
Proof.
  intros Hv Hn. pose proof Hv as (Hes & Hmax & Hlen & Hall & Hload).
  unfold iter_take. rewrite clamp_min by done.
  pose proof (sub_view h it l 0 (Z.to_nat (Z.min n (len it))) Hv ltac:(lia)) as Hs.
  simpl in Hs. rewrite ptr_add_0, Z2Nat.id in Hs by lia.
  replace (take (Z.to_nat n) l) with (take (Z.to_nat (Z.min n (len it))) l); [done|].
  destruct (decide (n ≤ len it)).
  - by rewrite Z.min_l by lia.
  - rewrite Z.min_r by lia. by rewrite !take_ge by lia.
Qed.

Lemma iter_drop_view h it l n :
  view h it l → 0 ≤ n < SIZE_MOD →
  view h (iter_drop it n) (drop (Z.to_nat n) l).
Proof.
  intros Hv Hn. pose proof Hv as (Hes & Hmax & Hlen & Hall & Hload).
  assert (0 ≤ len it) as Hlen0 by lia.
  pose proof (len_in_range _ _ Hlen0 Hes Hmax) as Hrange.
  unfold iter_drop. rewrite clamp_min by done.
  rewrite (szmul_small (Z.min n (len it)) (len it) (elem_size it)) by lia.
  unfold szsub. rewrite sz_small by lia.
  pose proof (sub_view h it l (Z.to_nat (Z.min n (len it)))
    (Z.to_nat (len it - Z.min n (len it))) Hv ltac:(lia)) as Hs.
  rewrite !Z2Nat.id in Hs by lia.
  replace (drop (Z.to_nat n) l)
    with (take (Z.to_nat (len it - Z.min n (len it)))
            (drop (Z.to_nat (Z.min n (len it))) l)); [done|].
  rewrite take_ge by (rewrite length_drop; lia).
  destruct (decide (n ≤ len it)).
  - by rewrite Z.min_l by lia.
  - rewrite Z.min_r by lia. by rewrite !drop_ge by lia.
Qed.

Lemma iter_slice_fields it start end_ :
  0 < elem_size it → 0 ≤ len it → len it * elem_size it ≤ PTRDIFF_MAX →
  0 ≤ start < SIZE_MOD → 0 ≤ end_ < SIZE_MOD →
  iter_slice it start end_ =
    {| data := data it +ₚ Z.min start (len it) * elem_size it;
       len := Z.max 0 (Z.min end_ (len it) - Z.min start (len it));
       elem_size := elem_size it |}.
Proof.
  intros Hes Hlen0 Hmax Hs He.
  pose proof (len_in_range _ _ Hlen0 Hes Hmax) as Hrange.
  unfold iter_slice. rewrite !clamp_min by done.
  rewrite (szmul_small (Z.min start (len it)) (len it) (elem_size it)) by lia.
  f_equal.
  destruct (Z.min end_ (len it) >? Z.min start (len it)) eqn:E.
  - apply Z.gtb_gt in E. unfold szsub. rewrite sz_small; lia.
  - rewrite Z.gtb_ltb in E. apply Z.ltb_ge in E. lia.
Qed.

(** ** [iter_concat] *)

Lemma iter_concat_spec h a b la lb :
  view h a la → view h b lb → elem_size b = elem_size a →
  (len a + len b) * elem_size a ≤ PTRDIFF_MAX →
  ∃ it' h', iter_concat a b h = Some (it', h') ∧
    view h' it' (la ++ lb) ∧ heap_extends h h' ∧
    len it' = len a + len b ∧ elem_size it' = elem_size a.
Proof.
  intros Ha Hb Hes Hmax.
  pose proof Ha as (Hesa & Hmaxa & Hlena & Halla & Hloada).
  pose proof Hb as (Hesb & Hmaxb & Hlenb & Hallb & Hloadb).
  pose proof (view_block _ _ _ Ha) as Hblka.
  pose proof (view_block _ _ _ Hb) as Hblkb.
  rewrite Hes in *.
  unfold iter_concat. rewrite Hes.
  assert (szadd (len a) (len b) = len a + len b) as ->.
  { unfold szadd. apply sz_small. nia. }
  rewrite (szmul_small (len a + len b) (len a + len b) (elem_size a)) by lia.
  rewrite (szmul_small (len a) (len a + len b) (elem_size a)) by lia.
  rewrite (szmul_small (len b) (len a + len b) (elem_size a)) by lia.
  destruct (malloc_run h ((len a + len b) * elem_size a))
    as (h0 & Hm & Hbuf0 & Hext0 & _); [nia|].
  rewrite (bind_run _ _ _ _ _ Hm).
  set (ob := length h) in *. set (cap := (len a + len b) * elem_size a) in *.
  pose proof (length_mjoin_uniform _ _ Halla) as Hja.
  pose proof (length_mjoin_uniform _ _ Hallb) as Hjb.
  destruct (buffer_push h0 ob cap [] (mjoin la) (Ptr ob 0) Hbuf0)
    as (h1 & Hs1 & Hbuf1 & Hoth1); [done|simpl; unfold cap; nia|].
  destruct (buffer_push h1 ob cap [mjoin la] (mjoin lb)
              (Ptr ob 0 +ₚ len a * elem_size a) Hbuf1)
    as (h2 & Hs2 & Hbuf2 & Hoth2).
  { unfold ptr_add. simpl. rewrite app_nil_r. f_equal. lia. }
  { simpl. rewrite app_nil_r. unfold cap. nia. }
  assert (heap_extends h h1) as Hext1.
  { eapply heap_extends_store; [done|exact Hs1|]. simpl.
    apply lookup_ge_None. unfold ob. lia. }
  assert (heap_extends h h2) as Hext2.
  { eapply heap_extends_store; [done|exact Hs2|]. simpl.
    apply lookup_ge_None. unfold ob. lia. }
  erewrite bind_run; cycle 1.
  { eapply memcpy_run; [|exact Hs1]. by eapply load_extends. }
  erewrite bind_run; cycle 1.
  { eapply memcpy_run; [|exact Hs2]. by eapply load_extends. }
  eexists _, h2. split; [reflexivity|]. split; [|done].
  destruct Hbuf2 as [_ Hload2]. simpl in Hload2.
  rewrite !app_nil_r, <- join_app in Hload2.
  split; [done|]. simpl. split; [done|].
  split; [rewrite length_app; lia|]. split; [by apply Forall_app|].
  rewrite (length_mjoin_uniform _ (elem_size a)) in Hload2 by (by apply Forall_app).
  rewrite length_app in Hload2. by replace (len a + len b)
    with (Z.of_nat (length la + length lb)) by lia.
Qed.

(** ** The element types [int] and [unsigned char] are well behaved *)

Lemma byte_to_of_Z z : byte_to_Z (byte_of_Z z) = z mod 256.
Proof.
  unfold byte_to_Z, byte_of_Z.
  pose proof (Z.mod_pos_bound z 256 ltac:(lia)) as Hb.
  pose proof (Byte.to_of_N_option_map (Z.to_N (z mod 256))) as Hm.
  destruct (N.leb (Z.to_N (z mod 256)) 255) eqn:E.
  - destruct (Byte.of_N (Z.to_N (z mod 256))) as [b|]; simplify_eq/=. lia.
  - apply N.leb_gt in E. lia.
Qed.

Lemma length_le_encode n z : length (le_encode n z) = n.
Proof. revert z. induction n as [|n IH]; intros z; simpl; [done|]. by rewrite IH. Qed.

Lemma le_decode_encode n z :
  le_decode (le_encode n z) = z mod 256 ^ Z.of_nat n.
Proof.
  revert z. induction n as [|n IH]; intros z.
  - simpl. by rewrite Z.mod_1_r.
  - cbn [le_encode le_decode]. rewrite byte_to_of_Z, IH.
    rewrite Nat2Z.inj_succ, Z.pow_succ_r by lia.
    rewrite Z.rem_mul_r; [done|lia|]. apply Z.pow_pos_nonneg; lia.
Qed.

Lemma int_wrap_range z : - 2 ^ 31 ≤ int_wrap z < 2 ^ 31.
Proof.
  unfold int_wrap. pose proof (Z.mod_pos_bound (z + 2 ^ 31) (2 ^ 32) ltac:(lia)). lia.
Qed.

Lemma int_wrap_mod z : - 2 ^ 31 ≤ z < 2 ^ 31 → int_wrap (z mod 2 ^ 32) = z.
Proof.
  intros Hz. unfold int_wrap. destruct (decide (0 ≤ z)).
  - rewrite (Z.mod_small z) by lia. rewrite Z.mod_small; lia.
  - replace (z mod 2 ^ 32) with (z + 2 ^ 32).
    + replace (z + 2 ^ 32 + 2 ^ 31) with (z + 2 ^ 31 + 1 * 2 ^ 32) by lia.
      rewrite Z.mod_add by lia. rewrite Z.mod_small; lia.
    + replace z with (z + 2 ^ 32 + (-1) * 2 ^ 32) at 2 by lia.
      rewrite Z.mod_add by lia. rewrite Z.mod_small; lia.
Qed.

#[global] Instance int_ctype_ok : CTypeOk Z.
Proof.
  split.
  - done.
  - intros v. simpl. done.
  - intros bs _.
    change (int_wrap (le_decode (le_encode 4 (int_wrap (le_decode bs) mod 2 ^ 32)))
            = int_wrap (le_decode bs)).
    rewrite (le_decode_encode 4).
    change (256 ^ Z.of_nat 4) with (2 ^ 32).
    rewrite Z.mod_mod by lia. apply int_wrap_mod, int_wrap_range.
Qed.

#[global] Instance uchar_ctype_ok : CTypeOk byte.
Proof. split; done. Qed.

(** Encoding an [int] that is in range and reading it back. *)
Lemma int_decode_encode (v : Z) :
  - 2 ^ 31 ≤ v < 2 ^ 31 → decode (encode v) = v.
Proof.
  intros Hv. change (int_wrap (le_decode (le_encode 4 (v mod 2 ^ 32))) = v).
  rewrite (le_decode_encode 4).
  change (256 ^ Z.of_nat 4) with (2 ^ 32).
  rewrite Z.mod_mod by lia. by apply int_wrap_mod.
Qed.

(** ** Views made by [to_iter] *)

(** An array declared with values that survive the round trip through
    memory is, under [to_iter], a valid view of those values. *)
Lemma decl_array_typed_view {T : Type} `{CTypeOk T} (vs : list T) h :
  Z.of_nat (length vs) * sizeof ≤ PTRDIFF_MAX →
  (∀ v, v ∈ vs → decode (encode v) = v) →
  ∃ p h', decl_array vs h = Some (p, h') ∧ heap_extends h h' ∧
    typed_view h' (to_iter p (Z.of_nat (length vs) * sizeof) sizeof) vs.
Proof.
  intros Hmax Hcan. pose proof sizeof_pos as Hpos.
  pose proof (length_mjoin_uniform _ _ (encode_all_length vs)) as Hjoin.
  rewrite length_fmap in Hjoin.
  unfold decl_array.
  destruct (malloc_run h (Z.of_nat (length vs) * sizeof))
    as (h0 & Hm & Hbuf0 & Hext0 & _); [nia|].
  rewrite (bind_run _ _ _ _ _ Hm).
  destruct (buffer_push h0 (length h) _ [] (mjoin (encode <$> vs))
              (Ptr (length h) 0) Hbuf0) as (h1 & Hs & [_ Hload] & _);
    [done|simpl; lia|].
  erewrite bind_run; [|unfold store_bytes; by rewrite Hs].
  eexists _, h1. split; [reflexivity|]. split.
  { eapply heap_extends_store; [done|exact Hs|]. simpl.
    apply lookup_ge_None. lia. }
  split; [done|]. exists (encode <$> vs). split.
  - unfold to_iter. rewrite Z.div_mul by lia.
    split; [done|]. simpl. split; [done|]. split; [by rewrite length_fmap|].
    split; [apply encode_all_length|].
    simpl in Hload. rewrite app_nil_r, Hjoin in Hload. done.
  - rewrite <- list_fmap_compose. symmetry. rewrite <- (list_fmap_id vs) at 2.
    apply list_fmap_ext. intros i v Hi. simpl.
    apply Hcan. by eapply list_elem_of_lookup_2.
Qed.

(** ** First occurrences of a list without duplicates *)

Lemma unique_list_id {A} `{EqDecision A} (l : list A) :
  NoDup l → unique_list l = l.
Proof.
  induction l as [|x l IH] using rev_ind; intros Hnd; [done|].
  apply NoDup_app in Hnd as (Hl & Hx & _).
  rewrite unique_list_snoc, IH by done. unfold unique_step.
  rewrite bool_decide_false; [done|].
  intros Hin. apply (Hx x Hin). by left.
Qed.

(** * The claims about iterators *)

Lemma arr3_typed_view : typed_view arr3_heap it3 [10; 20; 30; 40].
Proof.
  split; [reflexivity|]. exists (encode <$> [10; 20; 30; 40]).
  split; [|by vm_compute].
  split; [done|]. split; [by vm_compute|]. split; [reflexivity|].
  split; [by repeat constructor|by vm_compute].
Defined.

Lemma arr2_view : view arr2_heap arr2_iter (encode <$> [1; 2; 2; 3; 4]).
Proof.
  split; [done|]. split; [by vm_compute|]. split; [reflexivity|].
  split; [by repeat constructor|by vm_compute].
Defined.

(** C3.  [iter_foldr] gives what [iter_foldl] gives on the reversed view:
    both run the update over the elements from the last to the first,
    starting from [init]. *)
Theorem foldr_is_foldl_of_reverse {T : Type} `{CTypeOk T} {Acc : Type}
    (h : heap) (it : Iterator) (vs : list T) (init : Acc) (f : Acc → T → Acc) :
  typed_view h it vs →
  ∃ it' h', iter_reverse it h = Some (it', h') ∧
    typed_view h' it' (reverse vs) ∧
    iter_foldr it init f h = Some (foldl f init (reverse vs), h) ∧
    iter_foldl it' init f h' = Some (foldl f init (reverse vs), h') ∧
    foldl f init (reverse vs) = foldr (flip f) init vs.
Proof.
  intros Hv. pose proof Hv as (Hes & l & Hvl & ->).
  destruct (iter_reverse_spec h it l Hvl) as (it' & h' & Hrev & Hv' & Hext & Hlen & Hes').
  assert (typed_view h' it' (reverse (decode <$> l))) as Htv.
  { split; [congruence|]. exists (reverse l). split; [done|]. by rewrite fmap_reverse. }
  exists it', h'. split; [done|]. split; [done|].
  split; [by apply iter_foldr_spec|]. split; [by apply iter_foldl_spec|].
  generalize (decode <$> l : list T). intros vs. clear.
  induction vs as [|v vs IH]; [done|].
  by rewrite reverse_cons, foldl_snoc, IH.
Qed.

Lemma foldr_is_foldl_of_reverse_witness :
  typed_view arr3_heap it3 [10; 20; 30; 40] ∧
  ∃ it' h', iter_reverse it3 arr3_heap = Some (it', h') ∧
    typed_view h' it' (reverse [10; 20; 30; 40]) ∧
    iter_foldr it3 0 (λ acc x, sub x acc) arr3_heap
      = Some (foldl (λ acc x, sub x acc) 0 (reverse [10; 20; 30; 40]), arr3_heap) ∧
    iter_foldl it' 0 (λ acc x, sub x acc) h'
      = Some (foldl (λ acc x, sub x acc) 0 (reverse [10; 20; 30; 40]), h') ∧
    foldl (λ acc x, sub x acc) 0 (reverse [10; 20; 30; 40])
      = foldr (flip (λ acc x, sub x acc)) 0 [10; 20; 30; 40].
Proof.
  split; [exact arr3_typed_view|].
  exact (foldr_is_foldl_of_reverse arr3_heap it3 [10; 20; 30; 40] 0
           (λ acc x, sub x acc) arr3_typed_view).
Defined.

(** C4.  [iter_partition] returns two views whose lengths add up to the
    length of the input; [yes] holds the elements that satisfy the
    predicate and [no] the others, each in input order, so that every
    element is in exactly one of them and together they are a permutation
    of the input. *)
Theorem partition_spec {T : Type} `{CTypeOk T}
    (h : heap) (it : Iterator) (vs : list T) (pred : T → bool) :
  typed_view h it vs →
  ∃ r h', iter_partition it pred h = Some (r, h') ∧
    typed_view h' (yes r) (filter (λ x, pred x) vs) ∧
    typed_view h' (no r) (filter (λ x, ¬ pred x) vs) ∧
    len (yes r) + len (no r) = len it ∧
    filter (λ x, pred x) vs ++ filter (λ x, ¬ pred x) vs ≡ₚ vs ∧
    (∀ x, x ∈ vs →
       ((x ∈ filter (λ x, pred x) vs) ∧ (x ∉ filter (λ x, ¬ pred x) vs)) ∨
       ((x ∉ filter (λ x, pred x) vs) ∧ (x ∈ filter (λ x, ¬ pred x) vs))).
Proof.
  intros Hv.
  destruct (iter_partition_spec h it vs pred Hv)
    as (r & h' & Hrun & Hyes & Hno & _ & _ & _).
  exists r, h'. split; [done|]. split; [done|]. split; [done|].
  pose proof (filter_app_complement (λ x, pred x) vs) as Hperm.
  split; [|split; [done|]].
  - rewrite <- (typed_view_length _ _ _ Hyes), <- (typed_view_length _ _ _ Hno),
      <- (typed_view_length _ _ _ Hv).
    rewrite <- Nat2Z.inj_add, <- length_app. by rewrite Hperm.
  - intros x Hx. rewrite !list_elem_of_filter.
    destruct (pred x); simpl; tauto.
Qed.

Lemma partition_spec_witness :
  typed_view arr3_heap it3 [10; 20; 30; 40] ∧
  ∃ r h', iter_partition it3 (λ x, x mod 3 =? 0) arr3_heap = Some (r, h') ∧
    typed_view h' (yes r) (filter (λ x, x mod 3 =? 0) [10; 20; 30; 40]) ∧
    typed_view h' (no r) (filter (λ x, ¬ (x mod 3 =? 0)) [10; 20; 30; 40]) ∧
    len (yes r) + len (no r) = len it3 ∧
    filter (λ x, x mod 3 =? 0) [10; 20; 30; 40] ++
      filter (λ x, ¬ (x mod 3 =? 0)) [10; 20; 30; 40] ≡ₚ [10; 20; 30; 40] ∧
    (∀ x, x ∈ [10; 20; 30; 40] →
       ((x ∈ filter (λ x, x mod 3 =? 0) [10; 20; 30; 40]) ∧
        (x ∉ filter (λ x, ¬ (x mod 3 =? 0)) [10; 20; 30; 40])) ∨
       ((x ∉ filter (λ x, x mod 3 =? 0) [10; 20; 30; 40]) ∧
        (x ∈ filter (λ x, ¬ (x mod 3 =? 0)) [10; 20; 30; 40]))).
Proof.
  split; [exact arr3_typed_view|].
  exact (partition_spec arr3_heap it3 [10; 20; 30; 40] (λ x, x mod 3 =? 0)
           arr3_typed_view).
Defined.

(** C5.  [iter_slice] with bounds that fit [size_t] clamps both to the
    length of the view; the result is empty when the clamped end does not
    exceed the clamped start, and otherwise is the part of the view from
    one to the other, in place: the heap is not touched, the view starts at
    the address of element [s], and each of its elements is an element of
    the original view at an index below its length. *)
Theorem slice_spec (h : heap) (it : Iterator) (l : list (list byte))
    (start end_ : Z) :
  view h it l → 0 ≤ start < SIZE_MOD → 0 ≤ end_ < SIZE_MOD →
  let s := Z.min start (len it) in
  let e := Z.min end_ (len it) in
  let r := iter_slice it start end_ in
  (0 ≤ s ≤ len it ∧ 0 ≤ e ≤ len it) ∧
  (e ≤ s → len r = 0 ∧ view h r []) ∧
  (s < e → len r = e - s) ∧
  data r = data it +ₚ s * elem_size it ∧
  elem_size r = elem_size it ∧
  view h r (take (Z.to_nat (e - s)) (drop (Z.to_nat s) l)) ∧
  (∀ i : nat, Z.of_nat i < len r →
     s + Z.of_nat i < len it ∧
     data r +ₚ Z.of_nat i * elem_size r
       = data it +ₚ (s + Z.of_nat i) * elem_size it ∧
     take (Z.to_nat (e - s)) (drop (Z.to_nat s) l) !! i
       = l !! (Z.to_nat s + i)%nat).
Proof.
  intros Hv Hs He s e r.
  pose proof Hv as (Hes & Hmax & Hlen & Hall & Hload).
  assert (0 ≤ len it) as Hlen0 by lia.
  assert (r = {| data := data it +ₚ s * elem_size it;
                 len := Z.max 0 (e - s); elem_size := elem_size it |}) as Hr.
  { by apply iter_slice_fields. }
  assert (view h r (take (Z.to_nat (e - s)) (drop (Z.to_nat s) l))) as Hvr.
  { rewrite Hr.
    pose proof (sub_view h it l (Z.to_nat s) (Z.to_nat (e - s)) Hv) as Hsub.
    rewrite !Z2Nat.id in Hsub by lia.
    replace (Z.max 0 (e - s)) with (Z.of_nat (Z.to_nat (e - s))) by lia.
    apply Hsub. lia. }
  split; [lia|]. split; [|split; [|split; [|split; [|split; [done|]]]]].
  - intros Hle. split; [rewrite Hr; simpl; lia|].
    by replace (Z.to_nat (e - s)) with 0%nat in Hvr by lia.
  - intros Hlt. rewrite Hr. simpl. lia.
  - by rewrite Hr.
  - by rewrite Hr.
  - intros i Hi. rewrite Hr in Hi |- *. simpl in Hi |- *.
    split; [lia|]. split.
    + unfold ptr_add. simpl. f_equal. lia.
    + rewrite lookup_take_lt by lia. by rewrite lookup_drop.
Qed.

(** The slice of the demonstration, [iter_slice(_, 2, 7)], taken directly
    on the five-element array: the end is clamped to 5. *)
Lemma slice_spec_witness :
  let s := Z.min 2 (len arr2_iter) in
  let e := Z.min 7 (len arr2_iter) in
  let r := iter_slice arr2_iter 2 7 in
  let l := encode <$> [1; 2; 2; 3; 4] in
  view arr2_heap arr2_iter l ∧ 0 ≤ 2 < SIZE_MOD ∧ 0 ≤ 7 < SIZE_MOD ∧
  (0 ≤ s ≤ len arr2_iter ∧ 0 ≤ e ≤ len arr2_iter) ∧
  (e ≤ s → len r = 0 ∧ view arr2_heap r []) ∧
  (s < e → len r = e - s) ∧
  data r = data arr2_iter +ₚ s * elem_size arr2_iter ∧
  elem_size r = elem_size arr2_iter ∧
  view arr2_heap r (take (Z.to_nat (e - s)) (drop (Z.to_nat s) l)) ∧
  (∀ i : nat, Z.of_nat i < len r →
     s + Z.of_nat i < len arr2_iter ∧
     data r +ₚ Z.of_nat i * elem_size r
       = data arr2_iter +ₚ (s + Z.of_nat i) * elem_size arr2_iter ∧
     take (Z.to_nat (e - s)) (drop (Z.to_nat s) l) !! i
       = l !! (Z.to_nat s + i)%nat).
Proof.
  split; [exact arr2_view|]. split; [by vm_compute|]. split; [by vm_compute|].
  apply (slice_spec arr2_heap arr2_iter (encode <$> [1; 2; 2; 3; 4]) 2 7 arr2_view);
    by vm_compute.
Defined.

(** C6.  The view [iter_unique] returns has no two equal elements, and
    holds the element at index [i] of the input exactly when that element
    does not occur at a smaller index, in input order; on the array
    [{1, 2, 2, 3, 4}] it returns [{1, 2, 3, 4}]. *)
Theorem unique_spec :
  (∀ (h : heap) (it : Iterator) (l : list (list byte)),
     view h it l →
     ∃ it' h' u, iter_unique it h = Some (it', h') ∧
       view h' it' u ∧ NoDup u ∧
       u = (filter (λ ix, ix.2 ∉ take ix.1 l) (imap pair l)).*2) ∧
  run_values example_unique = Some [1; 2; 3; 4].
Proof.
  split; [|by vm_compute].
  intros h it l Hv.
  destruct (iter_unique_spec h it l Hv) as (it' & h' & Hrun & Hv' & _ & _).
  exists it', h', (unique_list l). split; [done|]. split; [done|].
  split; [apply unique_list_NoDup|apply unique_list_first_occurrences].
Qed.

Lemma unique_spec_witness :
  view arr2_heap arr2_iter (encode <$> [1; 2; 2; 3; 4]) ∧
  ∃ it' h' u, iter_unique arr2_iter arr2_heap = Some (it', h') ∧
    view h' it' u ∧ NoDup u ∧
    u = (filter (λ ix, ix.2 ∉ take ix.1 (encode <$> [1; 2; 2; 3; 4]))
           (imap pair (encode <$> [1; 2; 2; 3; 4]))).*2.
Proof.
  split; [exact arr2_view|].
  exact (proj1 unique_spec arr2_heap arr2_iter (encode <$> [1; 2; 2; 3; 4]) arr2_view).
Defined.

(** C7.  The second test of the demonstration program, run from the array
    [{1, 2, 2, 3, 4}] through repeat, concat, reverse, unique, pad and
    slice, ends in a view of 5 elements: 2, 1, 99, 99, 99. *)
Theorem example_test2_result :
  ∃ t2 h, example_test2 [] = Some (t2, h) ∧
    len t2 = 5 ∧ values h t2 = Some [2; 1; 99; 99; 99].
Proof. eexists _, _. split; [by vm_compute|]. split; by vm_compute. Qed.

(** C8.  [iter_any] returns 1 exactly when some element satisfies the
    predicate and 0 otherwise, so 0 on the empty view; [iter_all] returns
    1 exactly when every element satisfies it and 0 otherwise, so 1 on the
    empty view. *)
Theorem any_all_spec {T : Type} `{CTypeOk T}
    (h : heap) (it : Iterator) (vs : list T) (pred : T → bool) :
  typed_view h it vs →
  ∃ a b, iter_any it pred h = Some (a, h) ∧ iter_all it pred h = Some (b, h) ∧
    (a = 1 ∨ a = 0) ∧ (b = 1 ∨ b = 0) ∧
    (a = 1 ↔ ∃ x, x ∈ vs ∧ pred x = true) ∧
    (b = 1 ↔ ∀ x, x ∈ vs → pred x = true) ∧
    (len it = 0 → a = 0 ∧ b = 1).
Proof.
  intros Hv. pose proof (typed_view_length _ _ _ Hv) as Hlen.
  eexists _, _. split; [by apply iter_any_spec|]. split; [by apply iter_all_spec|].
  split; [destruct (existsb pred vs); auto|].
  split; [destruct (forallb pred vs); auto|].
  split; [|split].
  - destruct (existsb pred vs) eqn:E.
    + apply existsb_exists in E as (x & Hx & Hp). split; [|done].
      intros _. exists x. by rewrite list_elem_of_In.
    + split; [done|]. intros (x & Hx & Hp).
      assert (existsb pred vs = true); [|congruence].
      apply existsb_exists. exists x. by rewrite <- list_elem_of_In.
  - destruct (forallb pred vs) eqn:E.
    + rewrite forallb_forall in E. split; [|done].
      intros _ x Hx. apply E. by rewrite <- list_elem_of_In.
    + split; [done|]. intros Hall.
      assert (forallb pred vs = true); [|congruence].
      apply forallb_forall. intros x Hx. apply Hall. by rewrite list_elem_of_In.
  - intros Hz. destruct vs; [done|simpl in Hlen; lia].
Qed.

Lemma any_all_spec_witness :
  typed_view arr3_heap it3 [10; 20; 30; 40] ∧
  ∃ a b, iter_any it3 (λ x, x =? 20) arr3_heap = Some (a, arr3_heap) ∧
    iter_all it3 (λ x, x =? 20) arr3_heap = Some (b, arr3_heap) ∧
    (a = 1 ∨ a = 0) ∧ (b = 1 ∨ b = 0) ∧
    (a = 1 ↔ ∃ x, x ∈ [10; 20; 30; 40] ∧ (x =? 20) = true) ∧
    (b = 1 ↔ ∀ x, x ∈ [10; 20; 30; 40] → (x =? 20) = true) ∧
    (len it3 = 0 → a = 0 ∧ b = 1).
Proof.
  split; [exact arr3_typed_view|].
  exact (any_all_spec arr3_heap it3 [10; 20; 30; 40] (λ x, x =? 20) arr3_typed_view).
Defined.

(** C9.  For a count that fits [size_t], concatenating [iter_take] and
    [iter_drop] of a view gives a view of the same length with the same
    elements; a count of at least the length makes [iter_take] the whole
    view and [iter_drop] the empty one. *)
Theorem take_drop_concat (h : heap) (it : Iterator) (l : list (list byte)) (n : Z) :
  view h it l → 0 ≤ n < SIZE_MOD →
  ∃ it' h', iter_concat (iter_take it n) (iter_drop it n) h = Some (it', h') ∧
    len it' = len it ∧ elem_size it' = elem_size it ∧
    view h' it' l ∧ view h' it l ∧
    (len it ≤ n → view h (iter_take it n) l ∧ view h (iter_drop it n) []).
Proof.
  intros Hv Hn. pose proof Hv as (Hes & Hmax & Hlen & Hall & Hload).
  pose proof (iter_take_view h it l n Hv Hn) as Ht.
  pose proof (iter_drop_view h it l n Hv Hn) as Hd.
  assert (len (iter_take it n) + len (iter_drop it n) = len it) as Hsum.
  { destruct Ht as (_ & _ & <- & _), Hd as (_ & _ & <- & _).
    rewrite <- Nat2Z.inj_add, <- length_app, take_drop. done. }
  destruct (iter_concat_spec h _ _ _ _ Ht Hd) as (it' & h' & Hrun & Hv' & Hext & Hl & He);
    [done|by rewrite Hsum| ].
  rewrite take_drop in Hv'.
  exists it', h'. split; [done|]. split; [lia|]. split; [done|].
  split; [done|]. split; [by eapply view_extends|].
  intros Hge. rewrite take_ge in Ht by lia. rewrite drop_ge in Hd by lia. done.
Qed.

Lemma take_drop_concat_witness :
  view arr2_heap arr2_iter (encode <$> [1; 2; 2; 3; 4]) ∧ 0 ≤ 7 < SIZE_MOD ∧
  ∃ it' h', iter_concat (iter_take arr2_iter 7) (iter_drop arr2_iter 7) arr2_heap
              = Some (it', h') ∧
    len it' = len arr2_iter ∧ elem_size it' = elem_size arr2_iter ∧
    view h' it' (encode <$> [1; 2; 2; 3; 4]) ∧
    view h' arr2_iter (encode <$> [1; 2; 2; 3; 4]) ∧
    (len arr2_iter ≤ 7 →
     view arr2_heap (iter_take arr2_iter 7) (encode <$> [1; 2; 2; 3; 4]) ∧
     view arr2_heap (iter_drop arr2_iter 7) []).
Proof.
  split; [exact arr2_view|]. split; [by vm_compute|].
  apply (take_drop_concat arr2_heap arr2_iter (encode <$> [1; 2; 2; 3; 4]) 7 arr2_view).
  by vm_compute.
Defined.

(** C10.  Running [iter_unique] on its own result gives a view with the
    same elements as that result. *)
Theorem unique_idempotent (h : heap) (it : Iterator) (l : list (list byte)) :
  view h it l →
  ∃ u1 h1 u2 h2 lu, iter_unique it h = Some (u1, h1) ∧
    iter_unique u1 h1 = Some (u2, h2) ∧
    view h1 u1 lu ∧ view h2 u1 lu ∧ view h2 u2 lu ∧ len u2 = len u1.
Proof.
  intros Hv.
  destruct (iter_unique_spec h it l Hv) as (u1 & h1 & Hrun1 & Hv1 & _ & _).
  destruct (iter_unique_spec h1 u1 _ Hv1) as (u2 & h2 & Hrun2 & Hv2 & Hext & _).
  rewrite (unique_list_id (unique_list l)) in Hv2 by apply unique_list_NoDup.
  exists u1, h1, u2, h2, (unique_list l).
  split; [done|]. split; [done|]. split; [done|].
  split; [by eapply view_extends|]. split; [done|].
  destruct Hv1 as (_ & _ & <- & _), Hv2 as (_ & _ & <- & _). done.
Qed.

Lemma unique_idempotent_witness :
  view arr2_heap arr2_iter (encode <$> [1; 2; 2; 3; 4]) ∧
  ∃ u1 h1 u2 h2 lu, iter_unique arr2_iter arr2_heap = Some (u1, h1) ∧
    iter_unique u1 h1 = Some (u2, h2) ∧
    view h1 u1 lu ∧ view h2 u1 lu ∧ view h2 u2 lu ∧ len u2 = len u1.
Proof.
  split; [exact arr2_view|].
  exact (unique_idempotent arr2_heap arr2_iter (encode <$> [1; 2; 2; 3; 4]) arr2_view).
Defined.

(** * Further properties *)

(** ** Argument counts of [pipe] and [chain] *)

(** X1.  [pipe] with an initial value and one to ten steps applies the
    steps to the placeholder from left to right; with no step at all, or
    with more than ten, no pipeline is produced. *)
Theorem pipe_arity {A : Type} (x : A) (fs : list (A → A)) :
  pipe (Init x :: (Step <$> fs)) =
    if decide (1 ≤ length fs ≤ 10)%nat
    then Some (foldl (λ p s, s p) x fs)
    else None.
Proof.
  do 11 (destruct fs as [|? fs];
         [case_decide as Hn; simpl in Hn; try lia; reflexivity|]).
  case_decide as Hn; simpl in Hn; [lia|reflexivity].
Qed.

(** X2.  [chain] with an input and [n] functions: for [n = 4] it is the
    nested application; for any other [n] up to ten it is rejected; from
    eleven functions on, the selector returns the caller's own twelfth
    argument, and the expansion is a call of that argument on the whole
    argument list. *)
Theorem chain_arity (x : cexpr) (fs : list cexpr) :
  chain (x :: fs) =
    if decide (length fs = 4%nat) then Some (nest x fs)
    else match fs !! 10%nat with
         | Some f => Some (Call f (x :: fs))
         | None => None
         end.
Proof.
  do 11 (destruct fs as [|? fs]; [reflexivity|]).
  reflexivity.
Qed.

(** ** Writing typed elements to an output buffer *)

Section TypedBuffers.
Context {U : Type} `{CTypeOk U}.

Lemma c_repr_idem (v : U) : c_repr (c_repr v) = c_repr v.
Proof. unfold c_repr. apply decode_encode, encode_length. Qed.

Lemma typed_buffer_view h ob cap (ws : list U) :
  buffer h ob cap (encode <$> ws) →
  Z.of_nat (length ws) * sizeof ≤ PTRDIFF_MAX →
  typed_view h {| data := Ptr ob 0; len := Z.of_nat (length ws);
                  elem_size := sizeof |} (c_repr <$> ws).
Proof.
  intros Hbuf Hmax. split; [done|]. exists (encode <$> ws). split.
  - rewrite <- (length_fmap encode ws). apply (buffer_view _ _ _ _ _ Hbuf).
    + apply sizeof_pos.
    + apply encode_all_length.
    + by rewrite length_fmap.
  - by rewrite <- list_fmap_compose.
Qed.

Lemma store_elem_push h0 hk ob cap (ws : list U) (v : U) (j : Z) :
  buffer hk ob cap (encode <$> ws) → j = Z.of_nat (length ws) →
  (j + 1) * sizeof ≤ cap →
  heap_extends h0 hk → h0 !! ob = None →
  ∃ hk', store_elem (Ptr ob 0) j v hk = Some ((), hk') ∧
    buffer hk' ob cap (encode <$> (ws ++ [v])) ∧
    heap_extends h0 hk' ∧
    (∀ ob' cap' out, ob' ≠ ob → buffer hk ob' cap' out → buffer hk' ob' cap' out).
Proof.
  intros Hbuf -> Hroom Hext Hfresh.
  pose proof (length_mjoin_uniform _ _ (encode_all_length ws)) as Hjoin.
  rewrite length_fmap in Hjoin. pose proof (encode_length v) as Hlv.
  destruct (buffer_push hk ob cap _ (encode v)
              (Ptr ob 0 +ₚ Z.of_nat (length ws) * sizeof) Hbuf)
    as (hk' & Hs & Hbuf' & Hoth);
    [unfold ptr_add; simpl; f_equal; lia|lia|].
  exists hk'. split; [|split; [|split]].
  - unfold store_elem, store_bytes. by rewrite Hs.
  - by rewrite fmap_app.
  - eapply heap_extends_store; [done|exact Hs|done].
  - intros ob' cap' out Hne Hb. eapply buffer_frame; [exact Hs|simpl; lia|done].
Qed.
End TypedBuffers.

Lemma fresh_block (h : list (list (option byte))) : h !! length h = None.
Proof. apply lookup_ge_None. lia. Qed.

Lemma typed_view_extends {T : Type} `{CType T} h h' it (vs : list T) :
  heap_extends h h' → typed_view h it vs → typed_view h' it vs.
Proof.
  intros Hext (Hes & l & Hv & ->). split; [done|]. exists l.
  split; [by eapply view_extends|done].
Qed.

Lemma load_elem_at {T : Type} `{CTypeOk T} h it (vs : list T) (j : Z) v :
  typed_view h it vs → 0 ≤ j → vs !! Z.to_nat j = Some v →
  load_elem T (data it) j h = Some (v, h).
Proof.
  intros Hv Hj Hl. rewrite <- (Z2Nat.id j) by lia. by eapply load_elem_run.
Qed.

(** ** [iter_map] *)

Section Map.
Context {T : Type} `{CTypeOk T} {U : Type} `{CTypeOk U}.

Lemma iter_map_spec h it (vs : list T) (expr : T → U) :
  typed_view h it vs →
  len it * sizeof (T := U) ≤ PTRDIFF_MAX →
  ∃ it' h', iter_map it expr h = Some (it', h') ∧
    typed_view h' it' ((λ x, c_repr (expr x)) <$> vs) ∧
    len it' = len it ∧ elem_size it' = sizeof (T := U) ∧
    heap_extends h h' ∧ blk (data it') = length h ∧ fills_block h' it'.
Proof.
  intros Hv Hmax. pose proof (typed_view_length _ _ _ Hv) as Hlen.
  pose proof (sizeof_pos (T := U)) as Hpos.
  unfold iter_map.
  rewrite (szmul_small (len it) (len it) (sizeof (T := U))) by lia.
  destruct (malloc_run h (len it * sizeof (T := U)))
    as (h0 & Hm & Hbuf0 & Hext0 & _); [nia|].
  rewrite (bind_run _ _ _ _ _ Hm).
  set (ob := length h) in *. set (cap := len it * sizeof (T := U)) in *.
  loop_rule (λ i (_ : unit) hk, heap_extends h hk ∧
    buffer hk ob cap (encode <$> (expr <$> take (Z.to_nat i) vs))) h0.
  destruct Hrule as ([] & h' & Hloop & Hext & Hbuf); [lia|done| |].
  { intros j [] hk Hj [Hext Hbuf].
    destruct (lookup_lt_is_Some_2 vs (Z.to_nat j)) as [v Hv']; [lia|].
    rewrite (bind_run _ _ _ _ _
      (load_elem_at hk it vs j v (typed_view_extends _ _ _ _ Hext Hv) ltac:(lia) Hv')).
    destruct (store_elem_push h hk ob cap (expr <$> take (Z.to_nat j) vs) (expr v) j
                Hbuf) as (hk' & Hs & Hbuf' & Hext' & _).
    { rewrite length_fmap, length_take. lia. }
    { unfold cap. nia. }
    { done. }
    { apply fresh_block. }
    exists (), hk'. split; [by rewrite (bind_run _ _ _ _ _ Hs)|].
    split; [done|].
    replace (Z.to_nat (j + 1)) with (S (Z.to_nat j)) by lia.
    by rewrite (take_S_r _ _ _ Hv'), fmap_app. }
  rewrite (bind_run _ _ _ _ _ Hloop).
  eexists _, h'. split; [reflexivity|]. simpl.
  rewrite take_ge in Hbuf by lia.
  split; [|split; [done|split; [done|split; [done|split; [done|]]]]].
  - pose proof (typed_buffer_view h' ob cap (expr <$> vs) Hbuf) as Htv.
    rewrite length_fmap, <- list_fmap_compose in Htv.
    rewrite <- Hlen. apply Htv. lia.
  - split; [done|]. by destruct Hbuf as [HB _].
Qed.
End Map.

(** ** [iter_filter], [iter_sum], [iter_scan] *)

Section FilterSumScan.
Context {T : Type} `{CTypeOk T}.

Lemma typed_view_repr h it (vs : list T) :
  typed_view h it vs → c_repr <$> vs = vs.
Proof.
  intros Hv. rewrite <- (list_fmap_id vs) at 2.
  apply list_fmap_ext. intros i v Hi. simpl.
  eapply typed_view_canonical; [done|]. by eapply list_elem_of_lookup_2.
Qed.

Lemma iter_filter_spec h it (vs : list T) (pred : T → bool) :
  typed_view h it vs →
  ∃ it' h', iter_filter it pred h = Some (it', h') ∧
    typed_view h' it' (filter (λ x, pred x) vs) ∧
    len it' ≤ len it ∧ heap_extends h h' ∧ blk (data it') = length h.
Proof.
  intros Hv. pose proof (typed_view_length _ _ _ Hv) as Hlen.
  pose proof (typed_view_range _ _ _ Hv) as Hrange.
  pose proof Hv as (Hes & l & (Hes0 & Hmax & _) & _).
  rewrite Hes in Hes0, Hmax.
  unfold iter_filter.
  rewrite (szmul_small (len it) (len it) sizeof) by lia.
  destruct (malloc_run h (len it * sizeof)) as (h0 & Hm & Hbuf0 & Hext0 & _); [nia|].
  rewrite (bind_run _ _ _ _ _ Hm).
  set (ob := length h) in *. set (cap := len it * sizeof) in *.
  loop_rule (λ i count hk, heap_extends h hk ∧
    count = Z.of_nat (length (filter (λ x, pred x) (take (Z.to_nat i) vs))) ∧
    buffer hk ob cap (encode <$> filter (λ x, pred x) (take (Z.to_nat i) vs))) h0.
  destruct Hrule as (count & h' & Hloop & Hext & Hcount & Hbuf); [lia|done| |].
  { intros j count hk Hj (Hext & -> & Hbuf).
    destruct (lookup_lt_is_Some_2 vs (Z.to_nat j)) as [v Hv']; [lia|].
    rewrite (bind_run _ _ _ _ _
      (load_elem_at hk it vs j v (typed_view_extends _ _ _ _ Hext Hv) ltac:(lia) Hv')).
    replace (Z.to_nat (j + 1)) with (S (Z.to_nat j)) by lia.
    rewrite (take_S_r _ _ _ Hv'), filter_app.
    pose proof (length_filter (λ x, pred x) (take (Z.to_nat j) vs)) as Hlf.
    rewrite length_take in Hlf.
    destruct (pred v) eqn:Hp.
    - rewrite (filter_cons_True (λ x, pred x)) by (rewrite Hp; simpl; tauto).
      rewrite filter_nil.
      destruct (store_elem_push h hk ob cap _ v _ Hbuf eq_refl)
        as (hk' & Hs & Hbuf' & Hext' & _);
        [unfold cap; nia|done|apply fresh_block|].
      eexists _, hk'. split; [by rewrite (bind_run _ _ _ _ _ Hs)|].
      split; [done|]. split; [|done].
      rewrite length_app. simpl. unfold szadd. rewrite sz_small; lia.
    - rewrite (filter_cons_False (λ x, pred x)) by (rewrite Hp; simpl; tauto).
      rewrite filter_nil, app_nil_r. eexists _, hk. split; [reflexivity|done]. }
  rewrite take_ge in Hcount, Hbuf by lia.
  rewrite (bind_run _ _ _ _ _ Hloop).
  eexists _, h'. split; [reflexivity|]. simpl. rewrite Hcount.
  pose proof (length_filter (λ x, pred x) vs) as Hlf.
  split; [|split; [lia|done]].
  eapply buffer_typed_view; [exact Hv| |done|lia].
  intros x Hx. by apply list_elem_of_filter in Hx as [_ ?].
Qed.

Lemma iter_scan_spec h it (vs : list T) (init : T) (expr : T → T → T) :
  typed_view h it vs →
  ∃ it' h', iter_scan it init expr h = Some (it', h') ∧
    typed_view h' it'
      ((λ k, foldl (λ a x, c_repr (expr a x)) (c_repr init) (take (S k) vs))
         <$> seq 0 (length vs)) ∧
    len it' = len it ∧ heap_extends h h'.
Proof.
  intros Hv. pose proof (typed_view_length _ _ _ Hv) as Hlen.
  pose proof (typed_view_range _ _ _ Hv) as Hrange.
  pose proof Hv as (Hes & l & (Hes0 & Hmax & _) & _).
  rewrite Hes in Hes0, Hmax.
  set (g := λ a x, c_repr (expr a x)).
  set (out := λ n, (λ k, foldl g (c_repr init) (take (S k) vs)) <$> seq 0 n).
  unfold iter_scan.
  rewrite (szmul_small (len it) (len it) sizeof) by lia.
  destruct (malloc_run h (len it * sizeof)) as (h0 & Hm & Hbuf0 & Hext0 & _); [nia|].
  rewrite (bind_run _ _ _ _ _ Hm).
  set (ob := length h) in *. set (cap := len it * sizeof) in *.
  loop_rule (λ i acc hk, heap_extends h hk ∧
    acc = foldl g (c_repr init) (take (Z.to_nat i) vs) ∧
    buffer hk ob cap (encode <$> out (Z.to_nat i))) h0.
  destruct Hrule as (acc & h' & Hloop & Hext & Hacc & Hbuf); [lia|done| |].
  { intros j acc hk Hj (Hext & -> & Hbuf).
    destruct (lookup_lt_is_Some_2 vs (Z.to_nat j)) as [v Hv']; [lia|].
    rewrite (bind_run _ _ _ _ _
      (load_elem_at hk it vs j v (typed_view_extends _ _ _ _ Hext Hv) ltac:(lia) Hv')).
    destruct (store_elem_push h hk ob cap (out (Z.to_nat j))
                (g (foldl g (c_repr init) (take (Z.to_nat j) vs)) v) j Hbuf)
      as (hk' & Hs & Hbuf' & Hext' & _).
    { unfold out. rewrite length_fmap, length_seq. lia. }
    { unfold cap. nia. }
    { done. }
    { apply fresh_block. }
    eexists _, hk'. split; [by rewrite (bind_run _ _ _ _ _ Hs)|].
    split; [done|].
    replace (Z.to_nat (j + 1)) with (S (Z.to_nat j)) by lia.
    rewrite (take_S_r _ _ _ Hv'), foldl_snoc. split; [done|].
    unfold out in *. rewrite seq_S, fmap_app. simpl.
    by rewrite (take_S_r _ _ _ Hv'), foldl_snoc. }
  rewrite (bind_run _ _ _ _ _ Hloop).
  eexists _, h'. split; [reflexivity|]. simpl.
  replace (Z.to_nat (len it)) with (length vs) in Hbuf by lia.
  split; [|done].
  pose proof (typed_buffer_view h' ob cap (out (length vs)) Hbuf) as Htv.
  unfold out in Htv at 1 2. rewrite length_fmap, length_seq in Htv.
  rewrite Hlen in Htv. specialize (Htv ltac:(lia)).
  replace (c_repr <$> out (length vs)) with (out (length vs)) in Htv; [done|].
  unfold out. rewrite <- list_fmap_compose. apply list_fmap_ext.
  intros i k Hk. simpl.
  destruct (lookup_lt_is_Some_2 vs k) as [v Hv'].
  { apply lookup_seq in Hk. lia. }
  rewrite (take_S_r _ _ _ Hv'), foldl_snoc. unfold g. by rewrite c_repr_idem.
Qed.
End FilterSumScan.

(** ** [iter_sum] on [int]s *)

Lemma int_wrap_add_l a b : int_wrap (int_wrap a + b) = int_wrap (a + b).
Proof.
  unfold int_wrap. f_equal.
  replace ((a + 2 ^ 31) mod 2 ^ 32 - 2 ^ 31 + b + 2 ^ 31)
    with ((a + 2 ^ 31) mod 2 ^ 32 + b) by lia.
  rewrite Zplus_mod_idemp_l. f_equal. lia.
Qed.

Lemma foldl_add_wrap a (vs : list Z) :
  foldl add (int_wrap a) vs = int_wrap (foldl Z.add a vs).
Proof.
  revert a. induction vs as [|v vs IH]; intros a; [done|].
  simpl. unfold add at 2. by rewrite int_wrap_add_l, IH.
Qed.

Lemma int_wrap_small z : - 2 ^ 31 ≤ z < 2 ^ 31 → int_wrap z = z.
Proof. intros Hz. unfold int_wrap. rewrite Z.mod_small; lia. Qed.

(** ** [iter_zip] *)

Section Zip.
Context {A : Type} `{CTypeOk A} {B : Type} `{CTypeOk B} {P : Type} `{CTypeOk P}.

Lemma iter_zip_spec h a b (xs : list A) (ys : list B) (mk : A → B → P) :
  typed_view h a xs → typed_view h b ys →
  Z.min (len a) (len b) * sizeof (T := P) ≤ PTRDIFF_MAX →
  ∃ it' h', iter_zip a b mk h = Some (it', h') ∧
    typed_view h' it' (zip_with (λ x y, c_repr (mk x y)) xs ys) ∧
    len it' = Z.min (len a) (len b) ∧ heap_extends h h'.
Proof.
  intros Ha Hb Hmax.
  pose proof (typed_view_length _ _ _ Ha) as Hla.
  pose proof (typed_view_length _ _ _ Hb) as Hlb.
  pose proof (sizeof_pos (T := P)) as Hpos.
  unfold iter_zip.
  assert ((if len a <? len b then len a else len b) = Z.min (len a) (len b)) as ->.
  { destruct (len a <? len b) eqn:E; [apply Z.ltb_lt in E|apply Z.ltb_ge in E]; lia. }
  set (n := Z.min (len a) (len b)) in *.
  rewrite (szmul_small n n (sizeof (T := P))) by lia.
  destruct (malloc_run h (n * sizeof (T := P))) as (h0 & Hm & Hbuf0 & Hext0 & _);
    [nia|].
  rewrite (bind_run _ _ _ _ _ Hm).
  set (ob := length h) in *. set (cap := n * sizeof (T := P)) in *.
  loop_rule (λ i (_ : unit) hk, heap_extends h hk ∧
    buffer hk ob cap (encode <$> take (Z.to_nat i) (zip_with mk xs ys))) h0.
  destruct Hrule as ([] & h' & Hloop & Hext & Hbuf); [lia|done| |].
  { intros j [] hk Hj [Hext Hbuf].
    destruct (lookup_lt_is_Some_2 xs (Z.to_nat j)) as [x Hx]; [lia|].
    destruct (lookup_lt_is_Some_2 ys (Z.to_nat j)) as [y Hy]; [lia|].
    rewrite (bind_run _ _ _ _ _
      (load_elem_at hk a xs j x (typed_view_extends _ _ _ _ Hext Ha) ltac:(lia) Hx)).
    rewrite (bind_run _ _ _ _ _
      (load_elem_at hk b ys j y (typed_view_extends _ _ _ _ Hext Hb) ltac:(lia) Hy)).
    assert (zip_with mk xs ys !! Z.to_nat j = Some (mk x y)) as Hz.
    { apply lookup_zip_with_Some. eauto. }
    destruct (store_elem_push h hk ob cap _ (mk x y) j Hbuf)
      as (hk' & Hs & Hbuf' & Hext' & _).
    { rewrite length_take, length_zip_with. lia. }
    { unfold cap. nia. }
    { done. }
    { apply fresh_block. }
    exists (), hk'. split; [by rewrite (bind_run _ _ _ _ _ Hs)|].
    split; [done|].
    replace (Z.to_nat (j + 1)) with (S (Z.to_nat j)) by lia.
    by rewrite (take_S_r _ _ _ Hz). }
  rewrite (bind_run _ _ _ _ _ Hloop).
  eexists _, h'. split; [reflexivity|]. simpl.
  rewrite take_ge in Hbuf by (rewrite length_zip_with; lia).
  split; [|done].
  pose proof (typed_buffer_view h' ob cap (zip_with mk xs ys) Hbuf) as Htv.
  rewrite length_zip_with in Htv.
  replace (Z.of_nat (length xs `min` length ys)) with n in Htv by lia.
  specialize (Htv Hmax).
  replace (c_repr <$> zip_with mk xs ys)
    with (zip_with (λ x y, c_repr (mk x y)) xs ys) in Htv; [done|].
  clear. revert ys. induction xs as [|x xs IH]; intros [|y ys]; simpl; [done..|].
  by rewrite IH.
Qed.
End Zip.

(** ** [iter_range] *)

Lemma iter_range_spec h (start end_ : Z) :
  - 2 ^ 31 ≤ start < 2 ^ 31 → - 2 ^ 31 ≤ end_ < 2 ^ 31 →
  end_ - start < 2 ^ 31 →
  ∃ it' h', iter_range start end_ h = Some (it', h') ∧
    typed_view h' it' (seqZ start (end_ - start)) ∧
    len it' = Z.max 0 (end_ - start) ∧ heap_extends h h'.
Proof.
  intros Hst Hen Hd. unfold iter_range.
  assert (c_repr start = start) as -> by (by apply int_decode_encode).
  assert (c_repr end_ = end_) as -> by (by apply int_decode_encode).
  assert ((if end_ >? start then sz (sub end_ start) else 0)
          = Z.max 0 (end_ - start)) as ->.
  { destruct (end_ >? start) eqn:E.
    - apply Z.gtb_gt in E. unfold sub. rewrite int_wrap_small by lia.
      unfold sz, SIZE_MOD. rewrite Z.mod_small; lia.
    - rewrite Z.gtb_ltb in E. apply Z.ltb_ge in E. lia. }
  set (n := Z.max 0 (end_ - start)) in *.
  assert (n * 4 ≤ PTRDIFF_MAX) as Hmax by (unfold PTRDIFF_MAX; lia).
  rewrite (szmul_small n n 4) by lia.
  destruct (malloc_run h (n * 4)) as (h0 & Hm & Hbuf0 & Hext0 & _); [lia|].
  rewrite (bind_run _ _ _ _ _ Hm).
  set (ob := length h) in *. set (cap := n * 4) in *.
  loop_rule (λ i (_ : unit) hk, heap_extends h hk ∧
    buffer hk ob cap (encode <$> seqZ start i)) h0.
  destruct Hrule as ([] & h' & Hloop & Hext & Hbuf); [lia|done| |].
  { intros j [] hk Hj [Hext Hbuf].
    destruct (store_elem_push h hk ob cap (seqZ start j) (add start (int_wrap j)) j Hbuf)
      as (hk' & Hs & Hbuf' & Hext' & _).
    { rewrite length_seqZ. lia. }
    { change (sizeof (T := Z)) with 4. unfold cap. lia. }
    { done. }
    { apply fresh_block. }
    exists (), hk'. split; [by rewrite (bind_run _ _ _ _ _ Hs)|].
    split; [done|].
    rewrite seqZ_app, fmap_app by lia.
    change (seqZ (start + j) 1) with [start + j].
    unfold add in Hbuf'. rewrite (int_wrap_small j), int_wrap_small in Hbuf' by lia.
    rewrite fmap_app in Hbuf'. done. }
  rewrite (bind_run _ _ _ _ _ Hloop).
  eexists _, h'. split; [reflexivity|]. simpl. split; [|done].
  pose proof (typed_buffer_view h' ob cap (seqZ start n) Hbuf) as Htv.
  rewrite length_seqZ in Htv. rewrite Z2Nat.id in Htv by lia.
  change (sizeof (T := Z)) with 4 in Htv. specialize (Htv Hmax).
  replace (seqZ start (end_ - start)) with (seqZ start n).
  - replace (c_repr <$> seqZ start n) with (seqZ start n) in Htv; [done|].
    rewrite <- (list_fmap_id (seqZ start n)) at 1.
    apply list_fmap_ext. intros i v Hv. simpl. symmetry.
    apply lookup_seqZ in Hv as [-> Hi]. apply int_decode_encode. lia.
  - unfold n. destruct (decide (0 ≤ end_ - start)).
    + by rewrite Z.max_r by lia.
    + rewrite Z.max_l by lia. by rewrite !seqZ_nil by lia.
Qed.

(** ** [iter_repeat] *)

Lemma bind_fail {A B} (m : M A) (f : A → M B) h :
  m h = None → (m ≫= f) h = None.
Proof. intros E. unfold mbind, M_bind. by rewrite E. Qed.

Lemma join_replicate_join {A} (n : nat) (l : list (list A)) :
  mjoin (replicate n (mjoin l)) = mjoin (mjoin (replicate n l)).
Proof.
  induction n as [|n IH]; [done|]. simpl. by rewrite join_app, IH.
Qed.

Lemma length_join_replicate {A} (n : nat) (l : list A) :
  length (mjoin (replicate n l)) = (n * length l)%nat.
Proof. induction n as [|n IH]; [done|]. simpl. rewrite length_app. lia. Qed.

Lemma Forall_join_replicate {A} (P : A → Prop) (n : nat) (l : list A) :
  Forall P l → Forall P (mjoin (replicate n l)).
Proof.
  intros Hl. induction n as [|n IH]; [constructor|]. simpl. by apply Forall_app.
Qed.

Lemma iter_repeat_spec h it l (times : Z) :
  view h it l → 0 ≤ times < SIZE_MOD →
  len it * times * elem_size it ≤ PTRDIFF_MAX →
  ∃ it' h', iter_repeat it times h = Some (it', h') ∧
    view h' it' (mjoin (replicate (Z.to_nat times) l)) ∧
    len it' = len it * times ∧ elem_size it' = elem_size it ∧
    heap_extends h h'.
Proof.
  intros Hv Ht Hmax. pose proof Hv as (Hes & Hmaxv & Hlen & Hall & Hload).
  assert (0 ≤ len it) as Hlen0 by lia.
  pose proof (view_block _ _ _ Hv) as Hblk.
  assert (0 ≤ len it * times ≤ PTRDIFF_MAX) as Hlt by nia.
  unfold iter_repeat.
  assert (sz times = times) as -> by (unfold sz; by rewrite Z.mod_small).
  assert (szmul (len it) times = len it * times) as ->
    by (unfold szmul; by rewrite sz_small).
  assert (szmul (len it * times) (elem_size it) = len it * times * elem_size it) as ->
    by (unfold szmul; rewrite sz_small; nia).
  rewrite (szmul_small (len it) (len it) (elem_size it)) by lia.
  destruct (malloc_run h (len it * times * elem_size it))
    as (h0 & Hm & Hbuf0 & Hext0 & _); [nia|].
  rewrite (bind_run _ _ _ _ _ Hm).
  set (ob := length h) in *. set (cap := len it * times * elem_size it) in *.
  pose proof (length_mjoin_uniform _ _ Hall) as Hjoin. rewrite Hlen in Hjoin.
  loop_rule (λ i (_ : unit) hk, heap_extends h hk ∧
    buffer hk ob cap (replicate (Z.to_nat i) (mjoin l))) h0.
  destruct Hrule as ([] & h' & Hloop & Hext & Hbuf); [lia|done| |].
  { intros j [] hk Hj [Hext Hbuf].
    assert (szmul (szmul j (len it)) (elem_size it) = j * len it * elem_size it) as ->.
    { unfold szmul. rewrite (sz_small (j * len it)) by nia. rewrite sz_small; nia. }
    assert (Z.of_nat (length (mjoin (replicate (Z.to_nat j) (mjoin l))))
            = j * len it * elem_size it) as Hoff.
    { rewrite length_join_replicate. nia. }
    destruct (buffer_push hk ob cap _ (mjoin l)
                (Ptr ob 0 +ₚ j * len it * elem_size it) Hbuf)
      as (hk' & Hs & Hbuf' & Hoth);
      [unfold ptr_add; simpl; f_equal; lia|unfold cap; nia|].
    exists (), hk'. split.
    - erewrite bind_run; [reflexivity|].
      eapply memcpy_run; [|exact Hs]. by eapply load_extends.
    - split; [eapply heap_extends_store; [done|exact Hs|apply fresh_block]|].
      replace (Z.to_nat (j + 1)) with (S (Z.to_nat j)) by lia.
      by rewrite replicate_S_end. }
  rewrite (bind_run _ _ _ _ _ Hloop).
  eexists _, h'. split; [reflexivity|]. split; [|done].
  destruct Hbuf as [_ Hld]. rewrite join_replicate_join in Hld.
  assert (Z.of_nat (length (mjoin (replicate (Z.to_nat times) l)))
          = len it * times) as Hn.
  { rewrite length_join_replicate. nia. }
  split; [done|]. simpl. split; [done|]. split; [done|].
  split; [by apply Forall_join_replicate|].
  rewrite (length_mjoin_uniform _ (elem_size it)) in Hld
    by (by apply Forall_join_replicate).
  by rewrite Hn in Hld.
Qed.

(** ** [iter_pad] *)

Lemma view_same_block h h' it l :
  h' !! blk (data it) = h !! blk (data it) → view h it l → view h' it l.
Proof.
  intros Hb (Hes & Hmax & Hlen & Hall & Hload).
  split; [done|]. split; [done|]. split; [done|]. split; [done|].
  unfold load in *. by rewrite Hb.
Qed.

(** The copying loop of [_iter_pad_ptr], started on a fresh buffer. *)
Lemma pad_copy_loop h0 ob cap it l (n : Z) :
  view h0 it l → blk (data it) ≠ ob → buffer h0 ob cap [] →
  0 ≤ n → n * elem_size it ≤ cap →
  ∃ h1,
    for_range 0 (Z.min (len it) n) (λ _i (_ : Z),
      memcpy (Ptr ob 0 +ₚ szmul _i (elem_size it))
             (data it +ₚ szmul _i (elem_size it)) (elem_size it);;
      mret (Continue (szadd _i 1))) 0 h0
      = Some (Z.min (len it) n, h1) ∧
    buffer h1 ob cap (take (Z.to_nat (Z.min (len it) n)) l) ∧
    (∀ b, b ≠ ob → h1 !! b = h0 !! b).
Proof.
  intros Hv Hne Hbuf0 Hn Hcap. pose proof Hv as (Hes & Hmax & Hlen & Hall & Hload).
  assert (0 ≤ len it) as Hlen0 by lia.
  pose proof (len_in_range _ _ Hlen0 Hes Hmax) as Hrange.
  loop_rule (λ i st hk, st = i ∧ (∀ b, b ≠ ob → hk !! b = h0 !! b) ∧
    buffer hk ob cap (take (Z.to_nat i) l)) h0.
  destruct Hrule as (st & h1 & Hloop & -> & Hsame & Hbuf); [lia|done| |].
  { intros j st hk Hj (-> & Hsame & Hbuf).
    rewrite (szmul_small j (len it) (elem_size it)) by lia.
    destruct (lookup_lt_is_Some_2 l (Z.to_nat j)) as [c Hc]; [lia|].
    assert (Z.of_nat (length c) = elem_size it) as Hlenc.
    { rewrite Forall_lookup in Hall. by eapply Hall. }
    assert (Forall (λ c, Z.of_nat (length c) = elem_size it)
              (take (Z.to_nat j) l)) as Hall' by (by apply Forall_take).
    pose proof (length_mjoin_uniform _ _ Hall') as Hjoin.
    rewrite length_take in Hjoin.
    destruct (buffer_push hk ob cap _ c (Ptr ob 0 +ₚ j * elem_size it) Hbuf)
      as (hk' & Hs & Hbuf' & Hoth);
      [unfold ptr_add; simpl; f_equal; lia|nia|].
    exists (szadd j 1), hk'. split.
    - erewrite bind_run; [reflexivity|].
      eapply memcpy_run; [|exact Hs].
      pose proof (view_elem _ _ _ _ _
        (view_same_block h0 hk it l (Hsame _ Hne) Hv) Hc) as Hld.
      by rewrite Z2Nat.id in Hld by lia.
    - split; [unfold szadd; rewrite sz_small; lia|].
      split; [intros b Hb; rewrite Hoth by done; by apply Hsame|].
      replace (Z.to_nat (j + 1)) with (S (Z.to_nat j)) by lia.
      by rewrite (take_S_r _ _ _ Hc). }
  exists h1. done.
Qed.

Lemma iter_pad_ptr_spec h it l (newlen : Z) (padptr : ptr) (c : list byte) :
  view h it l → load h padptr (elem_size it) = Some c →
  0 ≤ newlen < SIZE_MOD → newlen * elem_size it ≤ PTRDIFF_MAX →
  ∃ it' h', _iter_pad_ptr it newlen padptr h = Some (it', h') ∧
    view h' it' (take (Z.to_nat newlen) l ++
                 replicate (Z.to_nat (newlen - len it)) c) ∧
    len it' = newlen ∧ elem_size it' = elem_size it ∧ heap_extends h h'.
Proof.
  intros Hv Hpad Hn Hmaxn. pose proof Hv as (Hes & Hmax & Hlen & Hall & Hload).
  assert (0 ≤ len it) as Hlen0 by lia.
  pose proof (view_block _ _ _ Hv) as Hblk.
  pose proof (load_length _ _ _ _ Hpad) as Hlenc.
  unfold _iter_pad_ptr.
  assert (sz newlen = newlen) as -> by (unfold sz; by rewrite Z.mod_small).
  rewrite (szmul_small newlen newlen (elem_size it)) by lia.
  destruct (malloc_run h (newlen * elem_size it))
    as (h0 & Hm & Hbuf0 & Hext0 & _); [nia|].
  rewrite (bind_run _ _ _ _ _ Hm).
  set (ob := length h) in *. set (cap := newlen * elem_size it) in *.
  set (m := Z.min (len it) newlen) in *.
  destruct (pad_copy_loop h0 ob cap it l newlen)
    as (h1 & Hcopy & Hbuf1 & Hsame1);
    [by eapply view_extends|lia|done|lia|done|].
  rewrite (bind_run _ _ _ _ _ Hcopy).
  assert (heap_extends h h1) as Hext1.
  { intros b B Hb. rewrite Hsame1; [by apply Hext0|].
    apply lookup_lt_Some in Hb. lia. }
  loop_rule (λ i (_ : unit) hk, heap_extends h hk ∧
    buffer hk ob cap (take (Z.to_nat m) l ++ replicate (Z.to_nat (i - m)) c)) h1.
  destruct Hrule as ([] & h' & Hloop & Hext & Hbuf); [lia| | |].
  { split; [done|]. by rewrite Z.sub_diag, app_nil_r. }
  { intros j [] hk Hj [Hext Hbuf].
    rewrite (szmul_small j newlen (elem_size it)) by lia.
    assert (Forall (λ c, Z.of_nat (length c) = elem_size it)
              (take (Z.to_nat m) l ++ replicate (Z.to_nat (j - m)) c)) as Hall'.
    { apply Forall_app. split; [by apply Forall_take|by apply Forall_replicate]. }
    pose proof (length_mjoin_uniform _ _ Hall') as Hjoin.
    rewrite length_app, length_take, length_replicate in Hjoin.
    assert (0 ≤ m ≤ len it) as Hm' by (unfold m; lia).
    replace (Z.of_nat (Z.to_nat m `min` length l + Z.to_nat (j - m))) with j
      in Hjoin by lia.
    destruct (buffer_push hk ob cap _ c (Ptr ob 0 +ₚ j * elem_size it) Hbuf)
      as (hk' & Hs & Hbuf' & Hoth);
      [unfold ptr_add; simpl; f_equal; lia|unfold cap; nia|].
    exists (), hk'. split.
    - erewrite bind_run; [reflexivity|].
      eapply memcpy_run; [|exact Hs]. by eapply load_extends.
    - split; [eapply heap_extends_store; [done|exact Hs|apply fresh_block]|].
      replace (Z.to_nat (j + 1 - m)) with (S (Z.to_nat (j - m))) by lia.
      by rewrite replicate_S_end, app_assoc. }
  rewrite (bind_run _ _ _ _ _ Hloop).
  eexists _, h'. split; [reflexivity|]. split; [|done].
  assert (take (Z.to_nat m) l ++ replicate (Z.to_nat (newlen - m)) c
          = take (Z.to_nat newlen) l ++ replicate (Z.to_nat (newlen - len it)) c) as E.
  { unfold m. destruct (decide (newlen ≤ len it)).
    - rewrite Z.min_r by lia. by replace (Z.to_nat (newlen - len it))
        with (Z.to_nat (newlen - newlen)) by lia.
    - rewrite Z.min_l by lia. by rewrite !take_ge by lia. }
  rewrite E in Hbuf.
  assert (Z.of_nat (length (take (Z.to_nat newlen) l ++
            replicate (Z.to_nat (newlen - len it)) c)) = newlen) as Hn'.
  { rewrite length_app, length_take, length_replicate. lia. }
  rewrite <- Hn' at 1.
  apply (buffer_view _ _ _ _ _ Hbuf); [done| |by rewrite Hn'].
  apply Forall_app. split; [by apply Forall_take|by apply Forall_replicate].
Qed.

Section Pad.
Context {T : Type} `{CTypeOk T}.

(** The local that [iter_pad] keeps the pad value in. *)
Lemma pad_local h (padval : T) :
  ∃ h1, (malloc sizeof ≫= λ _padval,
           store_bytes _padval (encode padval) ≫= λ _, mret _padval) h
          = Some (Ptr (length h) 0, h1) ∧
    buffer h1 (length h) sizeof [encode padval] ∧ heap_extends h h1.
Proof.
  pose proof (sizeof_pos (T := T)) as Hpos.
  pose proof (encode_length padval) as Hl.
  destruct (malloc_run h sizeof) as (h0 & Hm & Hbuf0 & Hext0 & _); [lia|].
  destruct (buffer_push h0 (length h) sizeof [] (encode padval)
              (Ptr (length h) 0) Hbuf0) as (h1 & Hs & Hbuf1 & _);
    [done|simpl; lia|].
  exists h1. split; [|split; [done|]].
  - rewrite (bind_run _ _ _ _ _ Hm).
    erewrite bind_run; [reflexivity|]. unfold store_bytes. by rewrite Hs.
  - eapply heap_extends_store; [done|exact Hs|apply fresh_block].
Qed.

Lemma iter_pad_unfold (it : Iterator) (newlen : Z) (padval : T) h :
  iter_pad it newlen padval h =
  ((malloc sizeof ≫= λ _padval,
      store_bytes _padval (encode padval) ≫= λ _, mret _padval)
   ≫= λ _padval, _iter_pad_ptr it newlen _padval) h.
Proof.
  unfold iter_pad, mbind, M_bind, mret, M_ret.
  destruct (malloc sizeof h) as [[p h0]|]; [|done].
  destruct (store_bytes p (encode padval) h0) as [[[] h1]|]; done.
Qed.

Lemma iter_pad_spec h it l (newlen : Z) (padval : T) :
  view h it l → elem_size it ≤ sizeof →
  0 ≤ newlen < SIZE_MOD → newlen * elem_size it ≤ PTRDIFF_MAX →
  ∃ it' h', iter_pad it newlen padval h = Some (it', h') ∧
    view h' it' (take (Z.to_nat newlen) l ++
                 replicate (Z.to_nat (newlen - len it))
                   (take (Z.to_nat (elem_size it)) (encode padval))) ∧
    len it' = newlen ∧ elem_size it' = elem_size it ∧ heap_extends h h'.
Proof.
  intros Hv Hes Hn Hmax. pose proof Hv as (Hes0 & _).
  pose proof (encode_length padval) as Hl.
  destruct (pad_local h padval) as (h1 & Hloc & [_ Hld] & Hext1).
  rewrite iter_pad_unfold, (bind_run _ _ _ _ _ Hloc).
  simpl in Hld. rewrite app_nil_r in Hld.
  pose proof (load_sub _ _ _ _ 0 (elem_size it) Hld ltac:(lia) ltac:(lia) ltac:(lia))
    as Hpad.
  rewrite ptr_add_0 in Hpad. simpl in Hpad.
  destruct (iter_pad_ptr_spec h1 it l newlen _ _ (view_extends _ _ _ _ Hext1 Hv) Hpad Hn Hmax)
    as (it' & h' & Hrun & Hv' & Hlen' & Hes' & Hext').
  exists it', h'. split; [done|]. split; [done|]. split; [done|]. split; [done|].
  by eapply heap_extends_trans.
Qed.

(** A pad value narrower than the elements: the padding loop reads the
    element size from the local and runs off its end. *)
Lemma iter_pad_narrow h it l (newlen : Z) (padval : T) :
  view h it l → sizeof < elem_size it →
  len it < newlen < SIZE_MOD → newlen * elem_size it ≤ PTRDIFF_MAX →
  iter_pad it newlen padval h = None.
Proof.
  intros Hv Hes Hn Hmax. pose proof Hv as (Hes0 & Hmaxv & Hlen & Hall & Hload).
  assert (0 ≤ len it) as Hlen0 by lia.
  destruct (pad_local h padval) as (h1 & Hloc & [(B & HB & HlenB) _] & Hext1).
  rewrite iter_pad_unfold, (bind_run _ _ _ _ _ Hloc).
  pose proof (view_block _ _ _ Hv) as Hblk.
  assert (length h < length h1)%nat as Hlt by (by eapply lookup_lt_Some).
  unfold _iter_pad_ptr.
  assert (sz newlen = newlen) as -> by (unfold sz; rewrite Z.mod_small; lia).
  rewrite (szmul_small newlen newlen (elem_size it)) by lia.
  destruct (malloc_run h1 (newlen * elem_size it))
    as (h2 & Hm & Hbuf2 & Hext2 & _); [nia|].
  rewrite (bind_run _ _ _ _ _ Hm).
  destruct (pad_copy_loop h2 (length h1) (newlen * elem_size it) it l newlen)
    as (h3 & Hcopy & _ & Hsame);
    [eapply view_extends; [|done]; by eapply heap_extends_trans|lia|done|lia|done|].
  rewrite (bind_run _ _ _ _ _ Hcopy).
  apply bind_fail. unfold for_range.
  replace (Z.to_nat (newlen - Z.min (len it) newlen))
    with (S (Z.to_nat (newlen - Z.min (len it) newlen - 1))) by lia.
  simpl. apply bind_fail, bind_fail. unfold memcpy. apply bind_fail.
  unfold load_bytes.
  destruct (load h3 (Ptr (length h) 0) (elem_size it)) as [bs|] eqn:E; [|done].
  apply load_Some in E as (B' & HB' & _ & _ & Hle & _). simpl in HB', Hle.
  rewrite Hsame in HB' by lia. apply Hext2 in HB. simplify_eq. lia.
Qed.
End Pad.

(** ** Traversing a view with a type wider than its elements *)

Lemma for_upto_fail {St} (body : Z → St → M (ctl St)) n i s h :
  (∀ j s, i ≤ j < i + Z.of_nat n →
     body j s h = None ∨ ∃ s', body j s h = Some (Continue s', h)) →
  (∃ j, i ≤ j < i + Z.of_nat n ∧ ∀ s, body j s h = None) →
  for_upto n i body s h = None.
Proof.
  revert i s. induction n as [|n IH]; intros i s Hstep (j & Hj & Hfail); [lia|].
  simpl. destruct (Hstep i s ltac:(lia)) as [E|(s' & E)].
  - by apply bind_fail.
  - rewrite (bind_run _ _ _ _ _ E). destruct (decide (j = i)) as [->|Hne].
    { by rewrite Hfail in E. }
    apply IH.
    + intros k s0 Hk. apply Hstep. lia.
    + exists j. split; [lia|done].
Qed.

Section WideRead.
Context {W : Type} `{CType W}.

Lemma wide_read_fails h it :
  fills_block h it → 0 < len it → 0 < elem_size it → elem_size it < sizeof →
  load_elem W (data it) (len it - 1) h = None.
Proof.
  intros [Hoff (B & HB & HlenB)] Hlen Hes Hw. unfold load_elem.
  apply bind_fail. unfold load_bytes.
  destruct (load h (data it +ₚ (len it - 1) * sizeof) sizeof) as [bs|] eqn:E; [|done].
  apply load_Some in E as (B' & HB' & _ & _ & Hle & _). simpl in HB', Hle.
  simplify_eq. nia.
Qed.

Lemma iter_for_wide_fails h it (op : W → M unit) :
  fills_block h it → 0 < len it → 0 < elem_size it → elem_size it < sizeof →
  (∀ x h', op x h' = Some ((), h')) →
  iter_for (T := W) it op h = None.
Proof.
  intros Hfill Hlen Hes Hw Hop. unfold iter_for. apply bind_fail.
  unfold for_range. apply for_upto_fail.
  - intros j [] Hj.
    destruct (load_elem W (data it) j h) as [[x h1]|] eqn:E.
    + right. exists (). 
      assert (h1 = h) as ->.
      { unfold load_elem, load_bytes, mbind, M_bind, mret, M_ret in E.
        destruct (load h (data it +ₚ j * sizeof) sizeof); [|done].
        by injection E as _ <-. }
      rewrite (bind_run _ _ _ _ _ E), (bind_run _ _ _ _ _ (Hop x h)). done.
    + left. by apply bind_fail.
  - exists (len it - 1). split; [lia|]. intros [].
    apply bind_fail. by apply wide_read_fails.
Qed.
End WideRead.

#[global] Instance pair_int_int_ok : CTypeOk (Z * Z).
Proof.
  split.
  - done.
  - intros [a b]. done.
  - intros bs _.
    change (decode (encode (decode bs : Z * Z)))
      with (decode (take 4 (encode (decode (take 4 bs) : Z) ++
                            encode (decode (drop 4 bs) : Z))) : Z,
            decode (drop 4 (encode (decode (take 4 bs) : Z) ++
                            encode (decode (drop 4 bs) : Z))) : Z).
    rewrite take_app_length', drop_app_length' by done.
    by rewrite !int_decode_encode by apply int_wrap_range.
Qed.

(** * The other macros: what they return *)

Ltac concrete_typed_view vs :=
  split; [reflexivity|]; exists (encode <$> vs);
  split; [|by vm_compute];
  split; [done|]; split; [by vm_compute|]; split; [reflexivity|];
  split; [by repeat constructor|by vm_compute].

Lemma arr2_typed_view : typed_view arr2_heap arr2_iter [1; 2; 2; 3; 4].
Proof. concrete_typed_view [1; 2; 2; 3; 4]. Defined.

Lemma arr_typed_view : typed_view arr_heap arr_iter [1; 2; 3; 4; 5; 6; 7].
Proof. concrete_typed_view [1; 2; 3; 4; 5; 6; 7]. Defined.

Lemma arr34_typed_view3 : typed_view arr34_heap it3 [10; 20; 30; 40].
Proof. concrete_typed_view [10; 20; 30; 40]. Defined.

Lemma arr34_typed_view4 : typed_view arr34_heap it4 [1; 2; 3; 4].
Proof. concrete_typed_view [1; 2; 3; 4]. Defined.

(** X3.  [iter_map] on a valid view whose mapped size fits an object
    returns a view of the same length, in a block of its own of exactly
    that size, whose element [i] is the image of element [i] of the input,
    as a value of the output type; the input is left as it was. *)
Theorem map_values {T : Type} `{CTypeOk T} {U : Type} `{CTypeOk U}
    (h : heap) (it : Iterator) (vs : list T) (expr : T → U) :
  typed_view h it vs →
  len it * sizeof (T := U) ≤ PTRDIFF_MAX →
  ∃ it' h', iter_map it expr h = Some (it', h') ∧
    typed_view h' it' ((λ x, c_repr (expr x)) <$> vs) ∧
    len it' = len it ∧ fills_block h' it' ∧
    blk (data it') ≠ blk (data it) ∧ typed_view h' it vs.
Proof.
  intros Hv Hmax.
  destruct (iter_map_spec h it vs expr Hv Hmax)
    as (it' & h' & Hrun & Hv' & Hlen & _ & Hext & Hblk & Hfill).
  exists it', h'. split; [done|]. split; [done|]. split; [done|]. split; [done|].
  split; [|by eapply typed_view_extends].
  destruct Hv as (_ & l & Hvl & _). pose proof (view_block _ _ _ Hvl). lia.
Qed.

Lemma map_values_witness :
  typed_view arr_heap arr_iter [1; 2; 3; 4; 5; 6; 7] ∧
  len arr_iter * sizeof (T := Z) ≤ PTRDIFF_MAX ∧
  ∃ it' h', iter_map arr_iter (λ x, mul x 7) arr_heap = Some (it', h') ∧
    typed_view h' it' ((λ x, c_repr (mul x 7)) <$> [1; 2; 3; 4; 5; 6; 7]) ∧
    len it' = len arr_iter ∧ fills_block h' it' ∧
    blk (data it') ≠ blk (data arr_iter) ∧
    typed_view h' arr_iter [1; 2; 3; 4; 5; 6; 7].
Proof.
  split; [exact arr_typed_view|]. split; [by vm_compute|].
  apply (map_values arr_heap arr_iter [1; 2; 3; 4; 5; 6; 7] (λ x, mul x 7)
           arr_typed_view).
  by vm_compute.
Defined.

(** X4.  [iter_filter] returns a view of the elements that satisfy the
    predicate, in input order; its length is their number, at most the
    length of the input, and the input is left as it was. *)
Theorem filter_values {T : Type} `{CTypeOk T}
    (h : heap) (it : Iterator) (vs : list T) (pred : T → bool) :
  typed_view h it vs →
  ∃ it' h', iter_filter it pred h = Some (it', h') ∧
    typed_view h' it' (filter (λ x, pred x) vs) ∧
    len it' = Z.of_nat (length (filter (λ x, pred x) vs)) ∧
    len it' ≤ len it ∧ typed_view h' it vs.
Proof.
  intros Hv.
  destruct (iter_filter_spec h it vs pred Hv)
    as (it' & h' & Hrun & Hv' & Hle & Hext & _).
  exists it', h'. split; [done|]. split; [done|].
  split; [by rewrite (typed_view_length _ _ _ Hv')|].
  split; [done|by eapply typed_view_extends].
Qed.

Lemma filter_values_witness :
  typed_view arr2_heap arr2_iter [1; 2; 2; 3; 4] ∧
  ∃ it' h', iter_filter arr2_iter (λ x, x mod 2 =? 0) arr2_heap = Some (it', h') ∧
    typed_view h' it' (filter (λ x, x mod 2 =? 0) [1; 2; 2; 3; 4]) ∧
    len it' = Z.of_nat (length (filter (λ x, x mod 2 =? 0) [1; 2; 2; 3; 4])) ∧
    len it' ≤ len arr2_iter ∧ typed_view h' arr2_iter [1; 2; 2; 3; 4].
Proof.
  split; [exact arr2_typed_view|].
  exact (filter_values arr2_heap arr2_iter [1; 2; 2; 3; 4] (λ x, x mod 2 =? 0)
           arr2_typed_view).
Defined.

(** X5.  [iter_sum] over [int]s, with [int] addition taken modulo 2^32,
    returns the sum of the elements reduced to 32 bits: the sum itself
    when that is in the range of [int], and 0 on the empty view. *)
Theorem sum_int (h : heap) (it : Iterator) (vs : list Z) :
  typed_view h it vs →
  ∃ s, iter_sum it h = Some (s, h) ∧
    s = int_wrap (foldl Z.add 0 vs) ∧
    (- 2 ^ 31 ≤ foldl Z.add 0 vs < 2 ^ 31 → s = foldl Z.add 0 vs) ∧
    (len it = 0 → s = 0).
Proof.
  intros Hv. pose proof (typed_view_length _ _ _ Hv) as Hlen.
  exists (int_wrap (foldl Z.add 0 vs)). split; [|split; [done|split]].
  - change (iter_sum it) with (iter_foldl it 0 add).
    rewrite (iter_foldl_spec h it vs 0 add Hv).
    by rewrite <- foldl_add_wrap.
  - apply int_wrap_small.
  - intros Hz. destruct vs; [done|simpl in Hlen; lia].
Qed.

Lemma sum_int_witness :
  typed_view arr2_heap arr2_iter [1; 2; 2; 3; 4] ∧
  ∃ s, iter_sum arr2_iter arr2_heap = Some (s, arr2_heap) ∧
    s = int_wrap (foldl Z.add 0 [1; 2; 2; 3; 4]) ∧
    (- 2 ^ 31 ≤ foldl Z.add 0 [1; 2; 2; 3; 4] < 2 ^ 31 →
     s = foldl Z.add 0 [1; 2; 2; 3; 4]) ∧
    (len arr2_iter = 0 → s = 0).
Proof.
  split; [exact arr2_typed_view|].
  exact (sum_int arr2_heap arr2_iter [1; 2; 2; 3; 4] arr2_typed_view).
Defined.

(** X6.  [iter_scan] returns a view as long as the input whose element [k]
    is the accumulator after the first [k + 1] elements, the accumulator
    being kept as a value of the element type; on a non-empty view its last
    element is what [iter_foldl] returns for the same start and update. *)
Theorem scan_values {T : Type} `{CTypeOk T}
    (h : heap) (it : Iterator) (vs : list T) (init : T) (expr : T → T → T) :
  typed_view h it vs →
  let g := λ a x, c_repr (expr a x) in
  ∃ it' h' out, iter_scan it init expr h = Some (it', h') ∧
    typed_view h' it' out ∧ len it' = len it ∧
    (∀ k : nat, (k < length vs)%nat →
       out !! k = Some (foldl g (c_repr init) (take (S k) vs))) ∧
    iter_foldl it (c_repr init) g h = Some (foldl g (c_repr init) vs, h) ∧
    (vs ≠ [] → last out = Some (foldl g (c_repr init) vs)).
Proof.
  intros Hv g.
  destruct (iter_scan_spec h it vs init expr Hv)
    as (it' & h' & Hrun & Hv' & Hlen & _).
  eexists it', h', _. split; [done|]. split; [exact Hv'|]. split; [done|].
  split; [|split; [by apply iter_foldl_spec|]].
  - intros k Hk. rewrite list_lookup_fmap, lookup_seq_lt by done. done.
  - intros Hne. rewrite last_lookup, length_fmap, length_seq.
    destruct vs as [|v vs]; [done|]. simpl length.
    rewrite list_lookup_fmap, lookup_seq_lt by (simpl; lia). simpl.
    by rewrite take_ge by (simpl; lia).
Qed.

Lemma scan_values_witness :
  typed_view arr3_heap it3 [10; 20; 30; 40] ∧
  let g := λ a x : Z, c_repr (add a x) in
  ∃ it' h' out, iter_scan it3 0 add arr3_heap = Some (it', h') ∧
    typed_view h' it' out ∧ len it' = len it3 ∧
    (∀ k : nat, (k < length [10; 20; 30; 40])%nat →
       out !! k = Some (foldl g (c_repr 0) (take (S k) [10; 20; 30; 40]))) ∧
    iter_foldl it3 (c_repr 0) g arr3_heap
      = Some (foldl g (c_repr 0) [10; 20; 30; 40], arr3_heap) ∧
    ([10; 20; 30; 40] ≠ [] →
     last out = Some (foldl g (c_repr 0) [10; 20; 30; 40])).
Proof.
  split; [exact arr3_typed_view|].
  exact (scan_values arr3_heap it3 [10; 20; 30; 40] 0 add arr3_typed_view).
Defined.

(** X7.  [iter_zip] of two valid views returns a view whose length is the
    smaller of the two lengths and whose element [i] is the pair of the
    elements [i] of the inputs; what the longer input has beyond that is
    left out. *)
Theorem zip_values {A : Type} `{CTypeOk A} {B : Type} `{CTypeOk B}
    {P : Type} `{CTypeOk P}
    (h : heap) (a b : Iterator) (xs : list A) (ys : list B) (mk : A → B → P) :
  typed_view h a xs → typed_view h b ys →
  Z.min (len a) (len b) * sizeof (T := P) ≤ PTRDIFF_MAX →
  ∃ it' h', iter_zip a b mk h = Some (it', h') ∧
    typed_view h' it' (zip_with (λ x y, c_repr (mk x y)) xs ys) ∧
    len it' = Z.min (len a) (len b) ∧
    typed_view h' a xs ∧ typed_view h' b ys.
Proof.
  intros Ha Hb Hmax.
  destruct (iter_zip_spec h a b xs ys mk Ha Hb Hmax)
    as (it' & h' & Hrun & Hv' & Hlen & Hext).
  exists it', h'. split; [done|]. split; [done|]. split; [done|].
  split; by eapply typed_view_extends.
Qed.

Lemma zip_values_witness :
  typed_view arr34_heap it3 [10; 20; 30; 40] ∧
  typed_view arr34_heap it4 [1; 2; 3; 4] ∧
  Z.min (len it3) (len it4) * sizeof (T := Z * Z) ≤ PTRDIFF_MAX ∧
  ∃ it' h', iter_zip it3 it4 (λ x y : Z, (x, y)) arr34_heap = Some (it', h') ∧
    typed_view h' it'
      (zip_with (λ x y : Z, c_repr (x, y)) [10; 20; 30; 40] [1; 2; 3; 4]) ∧
    len it' = Z.min (len it3) (len it4) ∧
    typed_view h' it3 [10; 20; 30; 40] ∧ typed_view h' it4 [1; 2; 3; 4].
Proof.
  split; [exact arr34_typed_view3|]. split; [exact arr34_typed_view4|].
  split; [by vm_compute|].
  apply (zip_values arr34_heap it3 it4 [10; 20; 30; 40] [1; 2; 3; 4]
           (λ x y : Z, (x, y)) arr34_typed_view3 arr34_typed_view4).
  by vm_compute.
Defined.

(** X8.  [iter_range(int, start, end)], for bounds whose difference is in
    the range of [int], returns the view [start, start + 1, ..., end - 1];
    it is empty when [end <= start]. *)
Theorem range_values (h : heap) (start end_ : Z) :
  - 2 ^ 31 ≤ start < 2 ^ 31 → - 2 ^ 31 ≤ end_ < 2 ^ 31 →
  end_ - start < 2 ^ 31 →
  ∃ it' h', iter_range start end_ h = Some (it', h') ∧
    typed_view h' it' (seqZ start (end_ - start)) ∧
    len it' = Z.max 0 (end_ - start) ∧
    (end_ ≤ start → len it' = 0) ∧ heap_extends h h'.
Proof.
  intros Hs He Hd.
  destruct (iter_range_spec h start end_ Hs He Hd)
    as (it' & h' & Hrun & Hv' & Hlen & Hext).
  exists it', h'. split; [done|]. split; [done|]. split; [done|].
  split; [lia|done].
Qed.

Lemma range_values_witness :
  - 2 ^ 31 ≤ 5 < 2 ^ 31 ∧ - 2 ^ 31 ≤ 10 < 2 ^ 31 ∧ 10 - 5 < 2 ^ 31 ∧
  ∃ it' h', iter_range 5 10 [] = Some (it', h') ∧
    typed_view h' it' (seqZ 5 (10 - 5)) ∧
    len it' = Z.max 0 (10 - 5) ∧
    (10 ≤ 5 → len it' = 0) ∧ heap_extends [] h'.
Proof.
  split; [by vm_compute|]. split; [by vm_compute|]. split; [by vm_compute|].
  apply (range_values [] 5 10); by vm_compute.
Defined.

(** X9.  [iter_repeat], for a count that fits [size_t] and a result that
    fits an object, returns a view of [times] copies of the input, one
    after the other; with [times = 0] it is empty. *)
Theorem repeat_values (h : heap) (it : Iterator) (l : list (list byte))
    (times : Z) :
  view h it l → 0 ≤ times < SIZE_MOD →
  len it * times * elem_size it ≤ PTRDIFF_MAX →
  ∃ it' h', iter_repeat it times h = Some (it', h') ∧
    view h' it' (mjoin (replicate (Z.to_nat times) l)) ∧
    len it' = len it * times ∧
    (times = 0 → view h' it' []) ∧ view h' it l.
Proof.
  intros Hv Ht Hmax.
  destruct (iter_repeat_spec h it l times Hv Ht Hmax)
    as (it' & h' & Hrun & Hv' & Hlen & _ & Hext).
  exists it', h'. split; [done|]. split; [done|]. split; [done|].
  split; [|by eapply view_extends].
  intros ->. done.
Qed.

Lemma repeat_values_witness :
  view arr2_heap arr2_iter (encode <$> [1; 2; 2; 3; 4]) ∧ 0 ≤ 2 < SIZE_MOD ∧
  len arr2_iter * 2 * elem_size arr2_iter ≤ PTRDIFF_MAX ∧
  ∃ it' h', iter_repeat arr2_iter 2 arr2_heap = Some (it', h') ∧
    view h' it' (mjoin (replicate (Z.to_nat 2) (encode <$> [1; 2; 2; 3; 4]))) ∧
    len it' = len arr2_iter * 2 ∧
    (2 = 0 → view h' it' []) ∧
    view h' arr2_iter (encode <$> [1; 2; 2; 3; 4]).
Proof.
  split; [exact arr2_view|]. split; [by vm_compute|]. split; [by vm_compute|].
  apply (repeat_values arr2_heap arr2_iter (encode <$> [1; 2; 2; 3; 4]) 2 arr2_view);
    by vm_compute.
Defined.

(** X10.  [iter_pad] with a pad value at least as wide as the elements
    returns a view of exactly [newlen] elements: the first [newlen] elements
    of the input, followed, when the input is shorter, by copies of the
    first [elem_size] bytes of the pad value.  For [newlen] up to the
    length of the input it is a copy of the input's first [newlen]
    elements. *)
Theorem pad_values {T : Type} `{CTypeOk T}
    (h : heap) (it : Iterator) (l : list (list byte)) (newlen : Z) (padval : T) :
  view h it l → elem_size it ≤ sizeof →
  0 ≤ newlen < SIZE_MOD → newlen * elem_size it ≤ PTRDIFF_MAX →
  ∃ it' h', iter_pad it newlen padval h = Some (it', h') ∧
    view h' it' (take (Z.to_nat newlen) l ++
                 replicate (Z.to_nat (newlen - len it))
                   (take (Z.to_nat (elem_size it)) (encode padval))) ∧
    len it' = newlen ∧
    (newlen ≤ len it → view h' it' (take (Z.to_nat newlen) l)) ∧
    view h' it l.
Proof.
  intros Hv Hes Hn Hmax.
  destruct (iter_pad_spec h it l newlen padval Hv Hes Hn Hmax)
    as (it' & h' & Hrun & Hv' & Hlen & _ & Hext).
  exists it', h'. split; [done|]. split; [done|]. split; [done|].
  split; [|by eapply view_extends].
  intros Hle. replace (Z.to_nat (newlen - len it)) with 0%nat in Hv' by lia.
  by rewrite app_nil_r in Hv'.
Qed.

Lemma pad_values_witness :
  view arr2_heap arr2_iter (encode <$> [1; 2; 2; 3; 4]) ∧
  elem_size arr2_iter ≤ sizeof (T := Z) ∧
  0 ≤ 10 < SIZE_MOD ∧ 10 * elem_size arr2_iter ≤ PTRDIFF_MAX ∧
  ∃ it' h', iter_pad arr2_iter 10 (99 : Z) arr2_heap = Some (it', h') ∧
    view h' it' (take (Z.to_nat 10) (encode <$> [1; 2; 2; 3; 4]) ++
                 replicate (Z.to_nat (10 - len arr2_iter))
                   (take (Z.to_nat (elem_size arr2_iter)) (encode (99 : Z)))) ∧
    len it' = 10 ∧
    (10 ≤ len arr2_iter →
     view h' it' (take (Z.to_nat 10) (encode <$> [1; 2; 2; 3; 4]))) ∧
    view h' arr2_iter (encode <$> [1; 2; 2; 3; 4]).
Proof.
  split; [exact arr2_view|]. split; [by vm_compute|].
  split; [by vm_compute|]. split; [by vm_compute|].
  apply (pad_values arr2_heap arr2_iter (encode <$> [1; 2; 2; 3; 4]) 10 (99 : Z)
           arr2_view); by vm_compute.
Defined.

(** X11.  [iter_pad] with a pad value narrower than the elements, asked
    for more elements than the input has, goes wrong: the padding loop
    copies [elem_size] bytes from the local that holds the value, which is
    smaller. *)
Theorem pad_narrow_value_fails {T : Type} `{CTypeOk T}
    (h : heap) (it : Iterator) (l : list (list byte)) (newlen : Z) (padval : T) :
  view h it l → sizeof < elem_size it →
  len it < newlen < SIZE_MOD → newlen * elem_size it ≤ PTRDIFF_MAX →
  iter_pad it newlen padval h = None.
Proof. apply iter_pad_narrow. Qed.

Lemma pad_narrow_value_fails_witness :
  view arr2_heap arr2_iter (encode <$> [1; 2; 2; 3; 4]) ∧
  sizeof (T := byte) < elem_size arr2_iter ∧
  len arr2_iter < 10 < SIZE_MOD ∧ 10 * elem_size arr2_iter ≤ PTRDIFF_MAX ∧
  iter_pad arr2_iter 10 x00 arr2_heap = None.
Proof.
  split; [exact arr2_view|]. split; [by vm_compute|].
  split; [by vm_compute|]. split; [by vm_compute|].
  apply (pad_narrow_value_fails arr2_heap arr2_iter (encode <$> [1; 2; 2; 3; 4])
           10 x00 arr2_view); by vm_compute.
Defined.

(** X12.  Mapping a non-empty view and then traversing the result with
    [iter_for] at a type wider than the mapped elements goes wrong: the
    mapped buffer has exactly [len] elements of the narrower size, and the
    traversal reads [len] elements of the wider one.  The first iterator
    test of [example.c] does this with [int] and [double]. *)
Theorem map_then_wide_for_fails {T : Type} `{CTypeOk T} {U : Type} `{CTypeOk U}
    {W : Type} `{CType W}
    (h : heap) (it : Iterator) (vs : list T) (expr : T → U) (op : W → M unit) :
  typed_view h it vs → 0 < len it →
  len it * sizeof (T := U) ≤ PTRDIFF_MAX →
  sizeof (T := U) < sizeof (T := W) →
  (∀ x h', op x h' = Some ((), h')) →
  (p ← iter_map it expr; iter_for (T := W) p op) h = None.
Proof.
  intros Hv Hlen Hmax Hw Hop.
  destruct (iter_map_spec h it vs expr Hv Hmax)
    as (it' & h' & Hrun & Hv' & Hlen' & Hes' & _ & _ & Hfill).
  rewrite (bind_run _ _ _ _ _ Hrun).
  apply iter_for_wide_fails; [done|lia| |lia|done].
  rewrite Hes'. apply sizeof_pos.
Qed.

Lemma map_then_wide_for_fails_witness :
  typed_view arr_heap arr_iter [1; 2; 3; 4; 5; 6; 7] ∧ 0 < len arr_iter ∧
  len arr_iter * sizeof (T := Z) ≤ PTRDIFF_MAX ∧
  sizeof (T := Z) < sizeof (T := double) ∧
  (∀ (x : double) h', printf x h' = Some ((), h')) ∧
  (p ← iter_map arr_iter (λ x, mul x 7);
   iter_for (T := double) p (λ x, printf x)) arr_heap = None.
Proof.
  split; [exact arr_typed_view|]. split; [by vm_compute|].
  split; [by vm_compute|]. split; [by vm_compute|]. split; [done|].
  apply (map_then_wide_for_fails arr_heap arr_iter [1; 2; 3; 4; 5; 6; 7]
           (λ x, mul x 7) (λ x : double, printf x) arr_typed_view);
    [by vm_compute|by vm_compute|by vm_compute|done].
Defined.

Lemma example_test1_goes_wrong : example_test1 [] = None.
Proof. by vm_compute. Qed.

(** X13.  Reversing a view twice gives a view of the same length with the
    elements of the original, in the original order. *)
Theorem reverse_reverse (h : heap) (it : Iterator) (l : list (list byte)) :
  view h it l →
  ∃ it1 h1 it2 h2, iter_reverse it h = Some (it1, h1) ∧
    iter_reverse it1 h1 = Some (it2, h2) ∧
    view h2 it2 l ∧ view h2 it l ∧ len it2 = len it.
Proof.
  intros Hv.
  destruct (iter_reverse_spec h it l Hv) as (it1 & h1 & Hr1 & Hv1 & Hext1 & Hl1 & _).
  destruct (iter_reverse_spec h1 it1 _ Hv1) as (it2 & h2 & Hr2 & Hv2 & Hext2 & Hl2 & _).
  rewrite reverse_involutive in Hv2.
  exists it1, h1, it2, h2. split; [done|]. split; [done|]. split; [done|].
  split; [|lia]. eapply view_extends; [|done]. by eapply heap_extends_trans.
Qed.

Lemma reverse_reverse_witness :
  view arr2_heap arr2_iter (encode <$> [1; 2; 2; 3; 4]) ∧
  ∃ it1 h1 it2 h2, iter_reverse arr2_iter arr2_heap = Some (it1, h1) ∧
    iter_reverse it1 h1 = Some (it2, h2) ∧
    view h2 it2 (encode <$> [1; 2; 2; 3; 4]) ∧
    view h2 arr2_iter (encode <$> [1; 2; 2; 3; 4]) ∧ len it2 = len arr2_iter.
Proof.
  split; [exact arr2_view|].
  exact (reverse_reverse arr2_heap arr2_iter (encode <$> [1; 2; 2; 3; 4]) arr2_view).
Defined.

(** ** How the borrowing macros compose *)

Lemma ptr_add_add p a b : p +ₚ a +ₚ b = p +ₚ (a + b).
Proof. unfold ptr_add. simpl. f_equal. lia. Qed.

Lemma iter_drop_fields it n :
  0 < elem_size it → 0 ≤ len it → len it * elem_size it ≤ PTRDIFF_MAX →
  0 ≤ n < SIZE_MOD →
  iter_drop it n =
    {| data := data it +ₚ Z.min n (len it) * elem_size it;
       len := len it - Z.min n (len it);
       elem_size := elem_size it |}.
Proof.
  intros Hes Hlen0 Hmax Hn.
  pose proof (len_in_range _ _ Hlen0 Hes Hmax) as Hrange.
  unfold iter_drop. rewrite clamp_min by done.
  rewrite (szmul_small (Z.min n (len it)) (len it) (elem_size it)) by lia.
  unfold szsub. by rewrite sz_small by lia.
Qed.

Lemma iter_take_fields it n :
  0 ≤ n < SIZE_MOD →
  iter_take it n =
    {| data := data it; len := Z.min n (len it); elem_size := elem_size it |}.
Proof. intros Hn. unfold iter_take. by rewrite clamp_min. Qed.

(** X14.  On a valid view and with bounds that fit [size_t]: a slice is
    the take of a drop, two drops are one drop of the sum, and two takes
    are one take of the smaller count -- as structs, that is with the same
    pointer, length and element size. *)
Theorem borrowed_compose (h : heap) (it : Iterator) (l : list (list byte))
    (a b : Z) :
  view h it l → 0 ≤ a → 0 ≤ b → a + b < SIZE_MOD →
  iter_slice it a (a + b) = iter_take (iter_drop it a) b ∧
  iter_drop (iter_drop it a) b = iter_drop it (a + b) ∧
  iter_take (iter_take it a) b = iter_take it (Z.min a b).
Proof.
  intros (Hes & Hmax & Hlen & _) Ha Hb Hab.
  assert (0 ≤ len it) as Hlen0 by lia.
  split; [|split].
  - rewrite iter_slice_fields, (iter_drop_fields it a) by (done || lia).
    rewrite iter_take_fields by lia. simpl. f_equal. lia.
  - rewrite (iter_drop_fields it a), (iter_drop_fields it (a + b)) by (done || lia).
    rewrite iter_drop_fields; simpl; [|done|lia|nia|lia].
    rewrite ptr_add_add. f_equal; [f_equal; nia|lia].
  - rewrite (iter_take_fields it a), (iter_take_fields it (Z.min a b)) by lia.
    rewrite iter_take_fields by lia. simpl. f_equal. lia.
Qed.

Lemma borrowed_compose_witness :
  view arr2_heap arr2_iter (encode <$> [1; 2; 2; 3; 4]) ∧
  0 ≤ 2 ∧ 0 ≤ 5 ∧ 2 + 5 < SIZE_MOD ∧
  iter_slice arr2_iter 2 (2 + 5) = iter_take (iter_drop arr2_iter 2) 5 ∧
  iter_drop (iter_drop arr2_iter 2) 5 = iter_drop arr2_iter (2 + 5) ∧
  iter_take (iter_take arr2_iter 2) 5 = iter_take arr2_iter (Z.min 2 5).
Proof.
  split; [exact arr2_view|]. split; [by vm_compute|].
  split; [by vm_compute|]. split; [by vm_compute|].
  apply (borrowed_compose arr2_heap arr2_iter (encode <$> [1; 2; 2; 3; 4]) 2 5
           arr2_view); by vm_compute.
Defined.

(** ** How the reductions compose with the transforms *)

(** X15.  After [iter_filter] with a predicate, [iter_all] with the same
    predicate returns 1. *)
Theorem filter_then_all {T : Type} `{CTypeOk T}
    (h : heap) (it : Iterator) (vs : list T) (pred : T → bool) :
  typed_view h it vs →
  ∃ h', (p ← iter_filter it pred; iter_all p pred) h = Some (1, h').
Proof.
  intros Hv.
  destruct (iter_filter_spec h it vs pred Hv) as (it' & h' & Hrun & Hv' & _).
  exists h'. rewrite (bind_run _ _ _ _ _ Hrun).
  rewrite (iter_all_spec h' it' _ pred Hv').
  assert (forallb pred (filter (λ x, pred x) vs) = true) as ->; [|done].
  apply forallb_forall. intros x Hx%list_elem_of_In%list_elem_of_filter.
  destruct Hx as [Hp _]. by destruct (pred x).
Qed.

Lemma filter_then_all_witness :
  typed_view arr2_heap arr2_iter [1; 2; 2; 3; 4] ∧
  ∃ h', (p ← iter_filter arr2_iter (λ x, x mod 2 =? 0);
         iter_all p (λ x, x mod 2 =? 0)) arr2_heap = Some (1, h').
Proof.
  split; [exact arr2_typed_view|].
  exact (filter_then_all arr2_heap arr2_iter [1; 2; 2; 3; 4] (λ x, x mod 2 =? 0)
           arr2_typed_view).
Defined.

(** X16.  Folding the concatenation of two views from the left is folding
    the second one, started from the result of folding the first. *)
Theorem foldl_concat {T : Type} `{CTypeOk T} {Acc : Type}
    (h : heap) (a b : Iterator) (xs ys : list T) (init : Acc) (f : Acc → T → Acc) :
  typed_view h a xs → typed_view h b ys →
  (len a + len b) * sizeof ≤ PTRDIFF_MAX →
  ∃ c h' r, iter_concat a b h = Some (c, h') ∧
    iter_foldl (T := T) a init f h = Some (r, h) ∧
    iter_foldl (T := T) c init f h' = iter_foldl (T := T) b r f h' ∧
    iter_foldl (T := T) c init f h' = Some (foldl f init (xs ++ ys), h').
Proof.
  intros Ha Hb Hmax.
  pose proof Ha as (Hesa & la & Hva & ->). pose proof Hb as (Hesb & lb & Hvb & ->).
  destruct (iter_concat_spec h a b la lb Hva Hvb)
    as (c & h' & Hrun & Hvc & Hext & Hlen & Hes); [congruence|by rewrite Hesa|].
  assert (typed_view h' c (decode <$> (la ++ lb))) as Hc.
  { split; [congruence|]. by exists (la ++ lb). }
  rewrite fmap_app in Hc.
  exists c, h', (foldl f init (decode <$> la)).
  split; [done|]. split; [by apply iter_foldl_spec|].
  rewrite (iter_foldl_spec h' c _ init f Hc).
  rewrite (iter_foldl_spec h' b _ _ f (typed_view_extends _ _ _ _ Hext Hb)).
  by rewrite foldl_app.
Qed.

Lemma foldl_concat_witness :
  typed_view arr34_heap it3 [10; 20; 30; 40] ∧
  typed_view arr34_heap it4 [1; 2; 3; 4] ∧
  (len it3 + len it4) * sizeof (T := Z) ≤ PTRDIFF_MAX ∧
  ∃ c h' r, iter_concat it3 it4 arr34_heap = Some (c, h') ∧
    iter_foldl (T := Z) it3 0 add arr34_heap = Some (r, arr34_heap) ∧
    iter_foldl (T := Z) c 0 add h' = iter_foldl (T := Z) it4 r add h' ∧
    iter_foldl (T := Z) c 0 add h'
      = Some (foldl add 0 ([10; 20; 30; 40] ++ [1; 2; 3; 4]), h').
Proof.
  split; [exact arr34_typed_view3|]. split; [exact arr34_typed_view4|].
  split; [by vm_compute|].
  apply (foldl_concat arr34_heap it3 it4 [10; 20; 30; 40] [1; 2; 3; 4] 0 add
           arr34_typed_view3 arr34_typed_view4).
  by vm_compute.
Defined.

(** X17.  [iter_any] with a predicate and [iter_all] with its negation
    never agree: exactly one of them returns 1 and the other 0. *)
Theorem any_all_dual {T : Type} `{CTypeOk T}
    (h : heap) (it : Iterator) (vs : list T) (pred : T → bool) :
  typed_view h it vs →
  ∃ a b, iter_any it pred h = Some (a, h) ∧
    iter_all it (λ x, negb (pred x)) h = Some (b, h) ∧
    ((a = 1 ∧ b = 0) ∨ (a = 0 ∧ b = 1)).
Proof.
  intros Hv. eexists _, _.
  split; [by apply iter_any_spec|]. split; [by apply iter_all_spec|].
  assert (forallb (λ x, negb (pred x)) vs = negb (existsb pred vs)) as ->.
  { clear. induction vs as [|v vs IH]; [done|]. simpl. rewrite IH.
    by destruct (pred v). }
  destruct (existsb pred vs); simpl; auto.
Qed.

Lemma any_all_dual_witness :
  typed_view arr3_heap it3 [10; 20; 30; 40] ∧
  ∃ a b, iter_any it3 (λ x, x =? 20) arr3_heap = Some (a, arr3_heap) ∧
    iter_all it3 (λ x, negb (x =? 20)) arr3_heap = Some (b, arr3_heap) ∧
    ((a = 1 ∧ b = 0) ∨ (a = 0 ∧ b = 1)).
Proof.
  split; [exact arr3_typed_view|].
  exact (any_all_dual arr3_heap it3 [10; 20; 30; 40] (λ x, x =? 20) arr3_typed_view).
Defined.

(** X18.  [to_iter] on an array of [n] elements whose values survive the
    round trip through memory is a valid view of length [n] and element
    size [sizeof] of the element type that reads back exactly those
    values. *)
Theorem to_iter_declared_array {T : Type} `{CTypeOk T} (vs : list T) (h : heap) :
  Z.of_nat (length vs) * sizeof ≤ PTRDIFF_MAX →
  (∀ v, v ∈ vs → decode (encode v) = v) →
  ∃ p h', decl_array vs h = Some (p, h') ∧
    typed_view h' (to_iter p (Z.of_nat (length vs) * sizeof) sizeof) vs ∧
    len (to_iter p (Z.of_nat (length vs) * sizeof) sizeof) = Z.of_nat (length vs) ∧
    values h' (to_iter p (Z.of_nat (length vs) * sizeof) sizeof) = Some vs.
Proof.
  intros Hmax Hcan.
  destruct (decl_array_typed_view vs h Hmax Hcan) as (p & h' & Hrun & _ & Hv).
  exists p, h'. split; [done|]. split; [done|].
  split; [symmetry; exact (typed_view_length _ _ _ Hv)|].
  destruct Hv as (_ & l & Hvl & ->). unfold values.
  by rewrite (view_elems _ _ _ Hvl).
Qed.

Lemma to_iter_declared_array_witness :
  Z.of_nat (length [1; 2; 2; 3; 4]) * sizeof (T := Z) ≤ PTRDIFF_MAX ∧
  (∀ v : Z, v ∈ [1; 2; 2; 3; 4] → decode (encode v) = v) ∧
  ∃ p h', decl_array [1; 2; 2; 3; 4] [] = Some (p, h') ∧
    typed_view h' (to_iter p (Z.of_nat (length [1; 2; 2; 3; 4]) * sizeof (T := Z))
                     (sizeof (T := Z))) [1; 2; 2; 3; 4] ∧
    len (to_iter p (Z.of_nat (length [1; 2; 2; 3; 4]) * sizeof (T := Z))
           (sizeof (T := Z))) = Z.of_nat (length [1; 2; 2; 3; 4]) ∧
    values h' (to_iter p (Z.of_nat (length [1; 2; 2; 3; 4]) * sizeof (T := Z))
                 (sizeof (T := Z))) = Some [1; 2; 2; 3; 4].
Proof.
  assert (∀ v : Z, v ∈ [1; 2; 2; 3; 4] → decode (encode v) = v) as Hcan.
  { intros v Hv. apply int_decode_encode.
    repeat (apply elem_of_cons in Hv as [->|Hv]; [by vm_compute|]).
    by apply elem_of_nil in Hv. }
  split; [by vm_compute|]. split; [exact Hcan|].
  apply (to_iter_declared_array [1; 2; 2; 3; 4] []); [by vm_compute|exact Hcan].
Defined.

(** ** Borrowed and owned storage *)

Lemma store_load_after h p bs h' q n xs :
  store h p bs = Some h' → blk q = blk p →
  off p + Z.of_nat (length bs) ≤ off q →
  load h q n = Some xs → load h' q n = Some xs.
Proof.
  intros (B & HB & ? & ? & ->)%store_inv Hq Hle.
  rewrite !load_Some. intros (B' & HB' & ? & ? & ? & E).
  rewrite Hq in HB'. simplify_eq.
  eexists. split; [rewrite Hq; apply list_lookup_insert_eq; by eapply lookup_lt_Some|].
  split; [done|]. split; [done|]. split.
  { rewrite !length_app, length_take, length_fmap, length_drop. lia. }
  rewrite <- E. rewrite app_assoc.
  rewrite drop_app_ge by (rewrite length_app, length_take, length_fmap; lia).
  rewrite length_app, length_take, length_fmap, drop_drop.
  do 2 f_equal. lia.
Qed.

(** Overwriting element [i] of a valid view. *)
Lemma store_in_view h it l (i : nat) (c : list byte) :
  view h it l → (i < length l)%nat → Z.of_nat (length c) = elem_size it →
  ∃ h', store h (data it +ₚ Z.of_nat i * elem_size it) c = Some h' ∧
    view h' it (<[i := c]> l) ∧
    (∀ b, b ≠ blk (data it) → h' !! b = h !! b).
Proof.
  intros Hv Hi Hc. pose proof Hv as (Hes & Hmax & Hlen & Hall & Hload).
  pose proof Hload as (B & HB & Hoff & _ & Hend & _)%load_Some.
  pose proof (store_Some h (data it +ₚ Z.of_nat i * elem_size it) c B HB) as Hs.
  simpl in Hs. specialize (Hs ltac:(nia) ltac:(nia)).
  eexists. split; [exact Hs|]. split.
  - split; [done|]. split; [done|]. split; [by rewrite length_insert|].
    split; [by apply Forall_insert|].
    destruct (lookup_lt_is_Some_2 l i Hi) as [c0 Hc0].
    rewrite <- (take_drop_middle l i c0 Hc0) at 1.
    rewrite insert_app_r_alt by (rewrite length_take; lia).
    rewrite length_take, Nat.min_l, Nat.sub_diag by lia. simpl.
    rewrite join_app. simpl.
    assert (Forall (λ c, Z.of_nat (length c) = elem_size it) (take i l)) as Ht
      by (by apply Forall_take).
    assert (Forall (λ c, Z.of_nat (length c) = elem_size it) (drop (S i) l)) as Hd
      by (by apply Forall_drop).
    pose proof (length_mjoin_uniform _ _ Ht) as Hjt.
    pose proof (length_mjoin_uniform _ _ Hd) as Hjd.
    rewrite length_take in Hjt. rewrite length_drop in Hjd.
    replace (len it * elem_size it)
      with (Z.of_nat i * elem_size it +
            (elem_size it + (len it - Z.of_nat i - 1) * elem_size it)) by lia.
    apply load_app; [|apply load_app].
    + eapply store_load_before; [exact Hs|done|simpl; lia|].
      pose proof (load_sub _ _ _ _ 0 (Z.of_nat i * elem_size it) Hload) as Hsub.
      rewrite ptr_add_0 in Hsub. rewrite Hsub by nia. f_equal. simpl.
      by rewrite (mjoin_take _ _ _ Hall).
    + pose proof (store_load_same _ _ _ _ Hs) as Hmid. by rewrite Hc in Hmid.
    + rewrite ptr_add_add.
      eapply store_load_after; [exact Hs|done|simpl; lia|].
      rewrite (load_sub _ _ _ _ (Z.of_nat i * elem_size it + elem_size it)
                 ((len it - Z.of_nat i - 1) * elem_size it) Hload) by nia.
      f_equal.
      replace (Z.of_nat i * elem_size it + elem_size it)
        with (Z.of_nat (S i) * elem_size it) by lia.
      rewrite (mjoin_drop _ _ _ Hall).
      apply take_ge. apply Nat2Z.inj_le. rewrite Hjd. nia.
  - intros b Hb. eapply store_other; [exact Hs|done].
Qed.

Lemma iter_slice_view h it l (start end_ : Z) :
  view h it l → 0 ≤ start < SIZE_MOD → 0 ≤ end_ < SIZE_MOD →
  view h (iter_slice it start end_)
    (take (Z.to_nat (Z.min end_ (len it) - Z.min start (len it)))
       (drop (Z.to_nat (Z.min start (len it))) l)).
Proof.
  intros Hv Hs He. pose proof Hv as (Hes & Hmax & Hlen & _).
  rewrite iter_slice_fields by (done || lia).
  pose proof (sub_view h it l (Z.to_nat (Z.min start (len it)))
    (Z.to_nat (Z.min end_ (len it) - Z.min start (len it))) Hv) as Hsub.
  rewrite !Z2Nat.id in Hsub by lia.
  replace (Z.max 0 (Z.min end_ (len it) - Z.min start (len it)))
    with (Z.of_nat (Z.to_nat (Z.min end_ (len it) - Z.min start (len it)))) by lia.
  apply Hsub. lia.
Qed.

Lemma iter_reverse_fresh h it it' h' :
  iter_reverse it h = Some (it', h') → data it' = Ptr (length h) 0.
Proof.
  unfold iter_reverse. unfold mbind at 1, M_bind at 1, malloc.
  unfold mbind at 1, M_bind at 1.
  destruct (for_range _ _ _ _ _) as [[[] h1]|]; [|done].
  by intros [= <- _].
Qed.

(** X19.  A slice borrows: it is not copied, so overwriting an element of
    the source that lies inside the slice changes the element the slice
    reads at the corresponding index. *)
Theorem slice_sees_store (h : heap) (it : Iterator) (l : list (list byte))
    (start end_ : Z) (k : nat) (c : list byte) :
  view h it l → 0 ≤ start → end_ ≤ len it →
  start ≤ Z.of_nat k < end_ → Z.of_nat (length c) = elem_size it →
  ∃ h' s, store h (data it +ₚ Z.of_nat k * elem_size it) c = Some h' ∧
    view h' (iter_slice it start end_) s ∧
    s !! (k - Z.to_nat start)%nat = Some c ∧
    s = <[(k - Z.to_nat start)%nat := c]>
          (take (Z.to_nat (end_ - start)) (drop (Z.to_nat start) l)).
Proof.
  intros Hv Hs He Hk Hc. pose proof Hv as (Hes & Hmax & Hlen & _).
  assert (0 ≤ len it) as Hlen0 by lia.
  pose proof (len_in_range _ _ Hlen0 Hes Hmax) as Hrange.
  assert (PTRDIFF_MAX < SIZE_MOD) as Hlt by done.
  destruct (store_in_view h it l k c Hv ltac:(lia) Hc) as (h' & Hst & Hv' & _).
  pose proof (iter_slice_view h' it _ start end_ Hv' ltac:(lia) ltac:(lia)) as Hsl.
  rewrite !Z.min_l in Hsl by lia.
  eexists h', _. split; [done|]. split; [exact Hsl|].
  assert (take (Z.to_nat (end_ - start)) (drop (Z.to_nat start) (<[k:=c]> l))
          = <[(k - Z.to_nat start)%nat := c]>
              (take (Z.to_nat (end_ - start)) (drop (Z.to_nat start) l))) as E.
  { rewrite drop_insert_ge by lia. by rewrite take_insert_lt by lia. }
  split; [|done]. rewrite E.
  apply list_lookup_insert_eq. rewrite length_take, length_drop. lia.
Qed.

Lemma slice_sees_store_witness :
  view arr2_heap arr2_iter (encode <$> [1; 2; 2; 3; 4]) ∧
  0 ≤ 1 ∧ 4 ≤ len arr2_iter ∧ 1 ≤ Z.of_nat 2 < 4 ∧
  Z.of_nat (length (encode (9 : Z))) = elem_size arr2_iter ∧
  ∃ h' s,
    store arr2_heap (data arr2_iter +ₚ Z.of_nat 2 * elem_size arr2_iter)
      (encode (9 : Z)) = Some h' ∧
    view h' (iter_slice arr2_iter 1 4) s ∧
    s !! (2 - Z.to_nat 1)%nat = Some (encode (9 : Z)) ∧
    s = <[(2 - Z.to_nat 1)%nat := encode (9 : Z)]>
          (take (Z.to_nat (4 - 1))
             (drop (Z.to_nat 1) (encode <$> [1; 2; 2; 3; 4]))).
Proof.
  split; [exact arr2_view|]. split; [by vm_compute|]. split; [by vm_compute|].
  split; [by vm_compute|]. split; [by vm_compute|].
  apply (slice_sees_store arr2_heap arr2_iter (encode <$> [1; 2; 2; 3; 4]) 1 4 2
           (encode (9 : Z)) arr2_view); by vm_compute.
Defined.

(** X20.  The result of [iter_reverse] owns its storage: it lies in a
    block that did not exist before the call, and overwriting an element of
    the source afterwards leaves the reversed view as it was. *)
Theorem reverse_keeps_copy (h : heap) (it : Iterator) (l : list (list byte))
    (k : nat) (c : list byte) :
  view h it l → (k < length l)%nat → Z.of_nat (length c) = elem_size it →
  ∃ it' h1 h2, iter_reverse it h = Some (it', h1) ∧
    h !! blk (data it') = None ∧
    store h1 (data it +ₚ Z.of_nat k * elem_size it) c = Some h2 ∧
    view h2 it (<[k := c]> l) ∧ view h2 it' (reverse l).
Proof.
  intros Hv Hk Hc.
  destruct (iter_reverse_spec h it l Hv) as (it' & h1 & Hrun & Hv' & Hext & _).
  pose proof (iter_reverse_fresh _ _ _ _ Hrun) as Hfresh.
  pose proof (view_block _ _ _ Hv) as Hblk.
  destruct (store_in_view h1 it l k c (view_extends _ _ _ _ Hext Hv) Hk Hc)
    as (h2 & Hst & Hv2 & Hsame).
  exists it', h1, h2. split; [done|].
  split; [rewrite Hfresh; apply fresh_block|]. split; [done|]. split; [done|].
  eapply view_same_block; [|done]. apply Hsame. rewrite Hfresh. simpl. lia.
Qed.

Lemma reverse_keeps_copy_witness :
  view arr2_heap arr2_iter (encode <$> [1; 2; 2; 3; 4]) ∧
  (2 < length (encode <$> ([1; 2; 2; 3; 4]%Z : list Z)))%nat ∧
  Z.of_nat (length (encode (9 : Z))) = elem_size arr2_iter ∧
  ∃ it' h1 h2, iter_reverse arr2_iter arr2_heap = Some (it', h1) ∧
    arr2_heap !! blk (data it') = None ∧
    store h1 (data arr2_iter +ₚ Z.of_nat 2 * elem_size arr2_iter)
      (encode (9 : Z)) = Some h2 ∧
    view h2 arr2_iter (<[2%nat := encode (9 : Z)]> (encode <$> [1; 2; 2; 3; 4])) ∧
    view h2 it' (reverse (encode <$> [1; 2; 2; 3; 4])).
Proof.
  split; [exact arr2_view|]. split; [simpl; lia|]. split; [by vm_compute|].
  apply (reverse_keeps_copy arr2_heap arr2_iter (encode <$> [1; 2; 2; 3; 4]) 2
           (encode (9 : Z)) arr2_view); [simpl; lia|by vm_compute].
Defined.
